(** * Session lifecycle of the IAN TECH WhatsApp pairing server

    A shallow embedding of [server.js] (the multi-session server: the two
    registries [activeSessions] and [pairingCodes], [generatePairingCode],
    [createWhatsAppConnection] with its [connection.update] handler, the
    HTTP routes and the socket.io channel) and of the single-session bot
    (the second source file: [connectToWhatsApp] and its handler).

    JavaScript objects are shared: the same [sessionData] object is
    reachable from [activeSessions], from [pairingCodes] and from the
    closure of its socket's handler.  The embedding therefore keeps the
    objects in a store and lets the two maps, the handlers and the timers
    hold references into it.  An [async] function runs until its next
    [await]; each such run is one atomic step of the model, and the
    suspended continuation is kept as a pending task until the awaited
    promise settles. *)

From stdpp Require Import base tactics option list strings pretty gmap.

Local Open Scope string_scope.
Local Open Scope list_scope.
Set Warnings "-clear-no-such-hyp".

(** ** JavaScript values used by the server *)

Module Js.

(** Truthiness of a value that is [null]/[undefined] or a string: the empty
    string is falsy. *)
Definition truthy (v : option string) : bool :=
  match v with
  | Some s => negb (bool_decide (s = ""))
  | None => false
  end.

(** [v || d] on such a value with a string default. *)
Definition or_else (v : option string) (d : string) : string :=
  if truthy v then default d v else d.

(** [s.charAt(i)]: the one-character string at index [i], the empty string
    out of range. *)
Definition charAt (s : string) (i : nat) : string :=
  match String.get i s with
  | Some c => String c ""
  | None => ""
  end.

Definition is_digit (c : Ascii.ascii) : bool :=
  (48 <=? Ascii.nat_of_ascii c)%nat && (Ascii.nat_of_ascii c <=? 57)%nat.

(** [s.replace(/\D/g, '')] and [s.replace(/[^0-9]/g, '')]. *)
Fixpoint digits_only (s : string) : string :=
  match s with
  | EmptyString => EmptyString
  | String c s' => if is_digit c then String c (digits_only s') else digits_only s'
  end.

(** [s.split(sep)[0]] for a one-character separator. *)
Fixpoint before_first (sep : Ascii.ascii) (s : string) : string :=
  match s with
  | EmptyString => EmptyString
  | String c s' => if bool_decide (c = sep) then EmptyString else String c (before_first sep s')
  end.

(** The character [:]. *)
Definition colon : Ascii.ascii := Ascii.ascii_of_nat 58.

(** [s.startsWith(p)]. *)
Definition startsWith (p s : string) : bool := String.prefix p s.

End Js.

(** ** Fields of a JSON request body

    The routes receive parsed JSON, so a field of the body is a string or
    some other value.  They test a field for truthiness and call string
    methods on it; calling a method the value does not have throws a
    [TypeError].  A value that is not a string is kept by what the routes
    read of it: an array by whether the string [@] is one of its elements
    (arrays have [includes], but no [replace]) and by its conversion to a
    string; [undefined], [null], a boolean, a number or an object by its
    truthiness (none of them has [replace] or [includes]). *)

Inductive Field : Type :=
  | field_string (s : string)
  | field_array (has_at : bool) (shown : string)
  | field_other (truthy : bool).

Definition field_truthy (v : Field) : bool :=
  match v with
  | field_string s => negb (bool_decide (s = ""))
  | field_array _ _ => true
  | field_other b => b
  end.

(** ** An insertion-ordered [Map] with string keys

    [activeSessions.values()] is observable (the session list and the [init]
    snapshot), and a JavaScript [Map] iterates in insertion order, a [set] on
    an existing key keeping the key's position. *)

Module JsMap.

Definition t (V : Type) : Type := list (string * V).

Definition empty {V} : t V := [].

Fixpoint get {V} (k : string) (m : t V) : option V :=
  match m with
  | [] => None
  | (k', v) :: m' => if decide (k = k') then Some v else get k m'
  end.

Fixpoint set {V} (k : string) (v : V) (m : t V) : t V :=
  match m with
  | [] => [(k, v)]
  | (k', v') :: m' =>
      if decide (k = k') then (k, v) :: m' else (k', v') :: set k v m'
  end.

Definition keys {V} (m : t V) : list string := m.*1.
Definition values {V} (m : t V) : list V := m.*2.
Definition size {V} (m : t V) : nat := length m.

End JsMap.

(** ** Session records *)

Inductive Status : Type :=
  | initializing
  | qr_ready
  | connected
  | disconnected.

Global Instance Status_eq_dec : EqDecision Status.
Proof. solve_decision. Defined.

(** [sessionData.user], filled by the [open] branch. *)
Record User : Type := mkUser {
  user_id : string;
  user_name : string;
  user_phone : string
}.

(** [sock.user] as Baileys exposes it: an id and an optional display name. *)
Record SockUser : Type := mkSockUser {
  su_id : string;
  su_name : option string
}.

(** The object literal of [createWhatsAppConnection]; [qrImage] is the
    property the [qr] branch adds later.  [socket] is the handle returned by
    [makeWASocket], [authState] the folder the credentials were loaded
    from. *)
Record SessionData : Type := mkSession {
  id : string;
  pairingCode : string;
  qr : option string;
  status : Status;
  socket : option nat;
  authState : string;
  createdAt : Z;
  user : option User;
  qrImage : option string
}.

Definition set_qr (v : option string) (s : SessionData) : SessionData :=
  mkSession (id s) (pairingCode s) v (status s) (socket s) (authState s)
            (createdAt s) (user s) (qrImage s).
Definition set_status (v : Status) (s : SessionData) : SessionData :=
  mkSession (id s) (pairingCode s) (qr s) v (socket s) (authState s)
            (createdAt s) (user s) (qrImage s).
Definition set_socket (v : option nat) (s : SessionData) : SessionData :=
  mkSession (id s) (pairingCode s) (qr s) (status s) v (authState s)
            (createdAt s) (user s) (qrImage s).
Definition set_user (v : option User) (s : SessionData) : SessionData :=
  mkSession (id s) (pairingCode s) (qr s) (status s) (socket s) (authState s)
            (createdAt s) v (qrImage s).
Definition set_qrImage (v : option string) (s : SessionData) : SessionData :=
  mkSession (id s) (pairingCode s) (qr s) (status s) (socket s) (authState s)
            (createdAt s) (user s) v.

(** ** Configuration and the pairing-code generator *)

Definition AUTH_FOLDER : string := "ian_tech_auth".

(** [DisconnectReason.loggedOut] of the Baileys library (HTTP-like code 401). *)
Definition DisconnectReason_loggedOut : Z := 401.

Definition chars : string := "ABCDEFGHIJKLMNOPQRSTUVWXYZ0123456789".

(** The loop of [generatePairingCode] from iteration [i] on, [n] iterations
    left.  [rnd i] is the value of [Math.floor (Math.random () * chars.length)]
    drawn in iteration [i]. *)
Fixpoint generatePairingCode_loop (rnd : nat → nat) (i n : nat) (code : string) : string :=
  match n with
  | O => code
  | S n' => generatePairingCode_loop rnd (S i) n' (code +:+ Js.charAt chars (rnd i))
  end.

Definition generatePairingCode (rnd : nat → nat) : string :=
  generatePairingCode_loop rnd 0 8 "".

(** ** Events of the connection handle and messages to observers *)

Inductive Connection : Type := conn_open | conn_close | conn_connecting.

Global Instance Connection_eq_dec : EqDecision Connection.
Proof. solve_decision. Defined.

(** The destructured [update]: [connection], the value of
    [lastDisconnect?.error?.output?.statusCode] and [qr]. *)
Record Update : Type := mkUpdate {
  connection : option Connection;
  statusCode : option Z;
  u_qr : option string
}.

(** One entry of the [sessions] array sent in [init]. *)
Record Summary : Type := mkSummary {
  sum_id : string;
  sum_pairingCode : string;
  sum_status : Status;
  sum_user : option User;
  sum_qrAvailable : bool
}.

Inductive Msg : Type :=
  | msg_qr_update (sessionId qrCode code : string) (st : Status)
  | msg_session_update (sessionId : string) (st : Status)
                       (more : option (option User * string))
  | msg_init (sessions : list Summary)
  | msg_qr_data (sessionId qrCode code : string).

(** A call of [sock.sendMessage]: the handle, the jid and the two variable
    parts of the confirmation text (session id and code). *)
Record Outbound : Type := mkOutbound {
  out_socket : nat;
  out_jid : string;
  out_session : string;
  out_code : string
}.

Inductive Body : Type :=
  | body_sessions (l : list (Summary * Z))
  | body_created (sessionId code : option string)
  | body_paired (sessionId : string)
  | body_pairing (sessionId : string) (st : Status) (u : option User) (created : Z)
  | body_error (msg : string)
  | body_thrown.                 (* [error.message] of a caught exception *)

Inductive Response : Type :=
  | json (code : nat) (b : Body)
  | png (payload : string).

(** ** The state of the running server *)

(** A handle made by [makeWASocket]: the [sessionData] its handler closes
    over and its [user] property. *)
Record Sock : Type := mkSock {
  sock_session : nat;
  sock_user : option SockUser
}.

(** Continuations of [async] functions suspended at an [await]. *)
Inductive Task : Type :=
  | AwaitAuthState (sessionId : option string)      (* useMultiFileAuthState *)
  | AwaitVersion (r : nat)                          (* fetchLatestBaileysVersion *)
  | AwaitQrImage (r s : nat) (u : Update)           (* qrcode.toDataURL *)
  | AwaitProfilePicture (r : nat).                  (* sock.updateProfilePicture *)

Record State : Type := mkState {
  store : list SessionData;
  activeSessions : JsMap.t nat;
  pairingCodes : gmap string nat;
  sockets : list Sock;
  tasks : list Task;
  timers : list nat;
  observers : list nat;
  nextObserver : nat;
  delivered : list (nat * Msg);
  sendCalls : list Outbound
}.

Definition initial : State :=
  mkState [] JsMap.empty ∅ [] [] [] [] 0 [] [].

Definition with_store (v : list SessionData) (st : State) : State :=
  mkState v (activeSessions st) (pairingCodes st) (sockets st) (tasks st)
          (timers st) (observers st) (nextObserver st) (delivered st) (sendCalls st).
Definition with_activeSessions (v : JsMap.t nat) (st : State) : State :=
  mkState (store st) v (pairingCodes st) (sockets st) (tasks st)
          (timers st) (observers st) (nextObserver st) (delivered st) (sendCalls st).
Definition with_pairingCodes (v : gmap string nat) (st : State) : State :=
  mkState (store st) (activeSessions st) v (sockets st) (tasks st)
          (timers st) (observers st) (nextObserver st) (delivered st) (sendCalls st).
Definition with_sockets (v : list Sock) (st : State) : State :=
  mkState (store st) (activeSessions st) (pairingCodes st) v (tasks st)
          (timers st) (observers st) (nextObserver st) (delivered st) (sendCalls st).
Definition with_tasks (v : list Task) (st : State) : State :=
  mkState (store st) (activeSessions st) (pairingCodes st) (sockets st) v
          (timers st) (observers st) (nextObserver st) (delivered st) (sendCalls st).
Definition with_timers (v : list nat) (st : State) : State :=
  mkState (store st) (activeSessions st) (pairingCodes st) (sockets st) (tasks st)
          v (observers st) (nextObserver st) (delivered st) (sendCalls st).
Definition with_observers (v : list nat) (n : nat) (st : State) : State :=
  mkState (store st) (activeSessions st) (pairingCodes st) (sockets st) (tasks st)
          (timers st) v n (delivered st) (sendCalls st).
Definition with_delivered (v : list (nat * Msg)) (st : State) : State :=
  mkState (store st) (activeSessions st) (pairingCodes st) (sockets st) (tasks st)
          (timers st) (observers st) (nextObserver st) v (sendCalls st).
Definition with_sendCalls (v : list Outbound) (st : State) : State :=
  mkState (store st) (activeSessions st) (pairingCodes st) (sockets st) (tasks st)
          (timers st) (observers st) (nextObserver st) (delivered st) v.

(** Mutation of the object behind reference [r]. *)
Definition mutate (r : nat) (f : SessionData → SessionData) (st : State) : State :=
  with_store (alter f r (store st)) st.

(** [io.emit]: one delivery to every observer connected now. *)
Definition io_emit (m : Msg) (st : State) : State :=
  with_delivered (delivered st ++ ((λ o, (o, m)) <$> observers st)) st.

(** [socket.emit] on the observer's own socket. *)
Definition socket_emit (o : nat) (m : Msg) (st : State) : State :=
  with_delivered (delivered st ++ [(o, m)]) st.

(** The two registry lookups. *)
Definition get (k : string) (st : State) : option SessionData :=
  r ← JsMap.get k (activeSessions st); store st !! r.

Definition getByPairingCode (code : string) (st : State) : option SessionData :=
  r ← pairingCodes st !! code; store st !! r.

(** ** [createWhatsAppConnection] *)

(** The call itself: [ensureAuthFolder] touches only the file system, then
    the function suspends at [await useMultiFileAuthState]. *)
Definition createWhatsAppConnection (sessionId : option string) (st : State) : State :=
  with_tasks (tasks st ++ [AwaitAuthState sessionId]) st.

(** Lines 72 to 95, run when the credentials are loaded: the record is built
    and both maps are set; [now] is [Date.now ()], [created] is [new Date ()],
    [rnd] the random draws.  The function then suspends at
    [await fetchLatestBaileysVersion]. *)
Definition createWhatsAppConnection_register
    (sessionId : option string) (now created : Z) (rnd : nat → nat) (st : State) : State :=
  let authFolder :=
    if Js.truthy sessionId then AUTH_FOLDER +:+ "/" +:+ default "" sessionId
    else AUTH_FOLDER in
  let code := generatePairingCode rnd in
  let sessionData :=
    mkSession (Js.or_else sessionId ("IAN-TECH-" +:+ pretty now)) code None
              initializing None authFolder created None None in
  let r := length (store st) in
  let st := with_store (store st ++ [sessionData]) st in
  let st := with_activeSessions
              (JsMap.set (Js.or_else sessionId "default") r (activeSessions st)) st in
  let st := with_pairingCodes (<[code := r]> (pairingCodes st)) st in
  with_tasks (tasks st ++ [AwaitVersion r]) st.

(** Lines 96 to 189: the socket is made, stored in the record and its
    handlers are registered. *)
Definition createWhatsAppConnection_socket (r : nat) (st : State) : State :=
  let s := length (sockets st) in
  let st := with_sockets (sockets st ++ [mkSock r None]) st in
  mutate r (set_socket (Some s)) st.

(** ** The [connection.update] handler *)

(** Lines 159 to 165: the [session_update] of the [open] branch. *)
Definition on_update_open_emit (r : nat) (st : State) : State :=
  match store st !! r with
  | Some sd => io_emit (msg_session_update (id sd) (status sd)
                                           (Some (user sd, pairingCode sd))) st
  | None => st
  end.

(** Lines 134 to 183: the [open] and [close] branches.  The [open] branch
    suspends at [await sock.updateProfilePicture] when [sock.user.id] is
    set. *)
Definition on_update_conn (r s : nat) (u : Update) (st : State) : State :=
  match connection u with
  | Some conn_open =>
      let st := mutate r (set_status connected) st in
      let su := sk ← sockets st !! s; sock_user sk in
      match su with
      | Some w =>
          let st := mutate r (set_user (Some
                      (mkUser (su_id w) (Js.or_else (su_name w) "Unknown")
                              (Js.digits_only (Js.before_first Js.colon (su_id w)))))) st in
          if Js.truthy (Some (su_id w))
          then with_tasks (tasks st ++ [AwaitProfilePicture r]) st
          else on_update_open_emit r st
      | None => on_update_open_emit r st
      end
  | Some conn_close =>
      let shouldReconnect :=
        negb (bool_decide (statusCode u = Some DisconnectReason_loggedOut)) in
      let st := mutate r (set_status disconnected) st in
      let st := match store st !! r with
                | Some sd => io_emit (msg_session_update (id sd) (status sd) None) st
                | None => st
                end in
      if shouldReconnect then with_timers (timers st ++ [r]) st else st
  | _ => st
  end.

(** Lines 110 to 119: the [qr] branch up to [await qrcode.toDataURL]; without
    a [qr] the handler goes on to the other branches at once. *)
Definition on_update (r s : nat) (u : Update) (st : State) : State :=
  if Js.truthy (u_qr u) then
    let st := mutate r (set_status qr_ready ∘ set_qr (u_qr u)) st in
    with_tasks (tasks st ++ [AwaitQrImage r s u]) st
  else on_update_conn r s u st.

(** Lines 120 to 132, then the rest of the handler: [img] is the rendered
    image, [None] when rendering threw. *)
Definition on_update_qr_resume (r s : nat) (u : Update) (img : option string)
    (st : State) : State :=
  let st :=
    match img with
    | Some i =>
        let st := mutate r (set_qrImage (Some i)) st in
        match store st !! r with
        | Some sd => io_emit (msg_qr_update (id sd) i (pairingCode sd) (status sd)) st
        | None => st
        end
    | None => st
    end in
  on_update_conn r s u st.

(** The callback of [setTimeout] in the [close] branch:
    [createWhatsAppConnection (sessionData.id)]. *)
Definition timer_fires (i : nat) (st : State) : State :=
  match timers st !! i with
  | Some r =>
      let st := with_timers (delete i (timers st)) st in
      match store st !! r with
      | Some sd => createWhatsAppConnection (Some (id sd)) st
      | None => st
      end
  | None => st
  end.

(** ** HTTP routes *)

Definition summary (sd : SessionData) : Summary :=
  mkSummary (id sd) (pairingCode sd) (status sd) (user sd) (Js.truthy (qr sd)).

(** [Array.from (activeSessions.values ())]. *)
Definition sessions_of (st : State) : list SessionData :=
  omap (λ r, store st !! r) (JsMap.values (activeSessions st)).

Definition get_sessions (st : State) : Response :=
  json 200 (body_sessions ((λ sd, (summary sd, createdAt sd)) <$> sessions_of st)).

(** [POST /api/create-session].  [createWhatsAppConnection] is [async]: the
    route receives a promise, whose [id] and [pairingCode] are [undefined],
    and an [async] function never throws to its caller. *)
Definition post_create_session (body_sessionId : option string) (now : Z)
    (st : State) : State * Response :=
  let sessionId := Js.or_else body_sessionId ("IAN-TECH-" +:+ pretty now) in
  (createWhatsAppConnection (Some sessionId) st, json 200 (body_created None None)).

(** [POST /api/pair-with-code]; [send_ok] tells whether the promise of
    [sendMessage] resolves.  A truthy [phoneNumber] that is not a string has
    no [replace]: the call throws and the [catch] answers 500.  A
    [pairingCode] that is not a string is no key of [pairingCodes]. *)
Definition post_pair_with_code (body_pairingCode body_phoneNumber : Field)
    (send_ok : bool) (st : State) : State * Response :=
  if negb (field_truthy body_pairingCode) || negb (field_truthy body_phoneNumber) then
    (st, json 400 (body_error "Pairing code and phone number are required"))
  else
    match body_phoneNumber with
    | field_string phoneNumber =>
        let cleanedNumber := Js.digits_only phoneNumber in
        if negb (Js.startsWith "254" cleanedNumber)
           || negb (String.length cleanedNumber =? 12)%nat then
          (st, json 400 (body_error "Phone number must be in format: +254723278526"))
        else
          match body_pairingCode with
          | field_string code =>
              match getByPairingCode code st with
              | None => (st, json 404 (body_error "Invalid pairing code"))
              | Some sessionData =>
                  if negb (bool_decide (status sessionData = connected)) then
                    (st, json 400 (body_error "Session not connected yet"))
                  else
                    match socket sessionData with
                    | None => (st, json 500 body_thrown)
                    | Some s =>
                        let jid := cleanedNumber +:+ "@s.whatsapp.net" in
                        let st := with_sendCalls
                                    (sendCalls st
                                     ++ [mkOutbound s jid (id sessionData) code]) st in
                        if send_ok then (st, json 200 (body_paired (id sessionData)))
                        else (st, json 500 body_thrown)
                    end
              end
          | _ => (st, json 404 (body_error "Invalid pairing code"))
          end
    | _ => (st, json 500 body_thrown)
    end.

(** [GET /api/qr/:sessionId]; [render_ok] tells whether [qrcode.toBuffer]
    resolves.  The image is represented by the payload it renders. *)
Definition get_qr (sessionId : string) (render_ok : bool) (st : State) : Response :=
  let sessionData :=
    match get sessionId st with
    | Some sd => Some sd
    | None => get "default" st
    end in
  match sessionData with
  | Some sd =>
      if Js.truthy (qr sd) then
        if render_ok then png (default "" (qr sd)) else json 500 body_thrown
      else json 404 (body_error "QR code not available")
  | None => json 404 (body_error "QR code not available")
  end.

(** [GET /api/pairing-code/:code]. *)
Definition get_pairing_code (code : string) (st : State) : Response :=
  match getByPairingCode code st with
  | None => json 404 (body_error "Invalid pairing code")
  | Some sd => json 200 (body_pairing (id sd) (status sd) (user sd) (createdAt sd))
  end.

(** ** The socket.io channel *)

(** [io.on ('connection', ...)]: the new observer gets the [init] snapshot
    inside the connection callback. *)
Definition io_connection (st : State) : State :=
  let o := nextObserver st in
  let st := with_observers (observers st ++ [o]) (S o) st in
  socket_emit o (msg_init (summary <$> sessions_of st)) st.

Definition io_create_session (data_sessionId : option string) (now : Z)
    (st : State) : State :=
  createWhatsAppConnection
    (Some (Js.or_else data_sessionId ("IAN-TECH-" +:+ pretty now))) st.

Definition io_get_qr (o : nat) (data_sessionId : option string) (st : State) : State :=
  match get (Js.or_else data_sessionId "default") st with
  | Some sd =>
      match qrImage sd with
      | Some img =>
          if Js.truthy (Some img)
          then socket_emit o (msg_qr_data (id sd) img (pairingCode sd)) st
          else st
      | None => st
      end
  | None => st
  end.

Definition io_disconnect (o : nat) (st : State) : State :=
  with_observers (filter (λ o', o' ≠ o) (observers st)) (nextObserver st) st.

(** ** The event loop *)

(** How an awaited promise settles. *)
Inductive Outcome : Type :=
  | resolved_authState (now created : Z) (rnd : nat → nat)
  | resolved_version
  | resolved_qrImage (img : string)
  | resolved_profilePicture
  | rejected.

(** The [i]-th pending continuation resumes.  A rejected
    [useMultiFileAuthState] or [fetchLatestBaileysVersion] ends
    [createWhatsAppConnection]; the two awaits of the handler sit in
    [try] blocks, so the handler goes on. *)
Definition settle (i : nat) (o : Outcome) (st : State) : State :=
  match tasks st !! i with
  | None => st
  | Some t =>
      let st' := with_tasks (delete i (tasks st)) st in
      match t, o with
      | AwaitAuthState sid, resolved_authState now created rnd =>
          createWhatsAppConnection_register sid now created rnd st'
      | AwaitAuthState _, rejected => st'
      | AwaitVersion r, resolved_version => createWhatsAppConnection_socket r st'
      | AwaitVersion _, rejected => st'
      | AwaitQrImage r s u, resolved_qrImage img => on_update_qr_resume r s u (Some img) st'
      | AwaitQrImage r s u, rejected => on_update_qr_resume r s u None st'
      | AwaitProfilePicture r, resolved_profilePicture => on_update_open_emit r st'
      | AwaitProfilePicture r, rejected => on_update_open_emit r st'
      | _, _ => st
      end
  end.

Inductive Event : Type :=
  | Listen                                         (* the [server.listen] callback *)
  | Settle (i : nat) (o : Outcome)
  | SockUserSet (s : nat) (su : option SockUser)   (* Baileys sets [sock.user] *)
  | ConnectionUpdate (s : nat) (u : Update)
  | TimerFires (i : nat)
  | GetSessions
  | PostCreateSession (body_sessionId : option string) (now : Z)
  | PostPairWithCode (body_pairingCode body_phoneNumber : Field) (send_ok : bool)
  | GetQr (sessionId : string) (render_ok : bool)
  | GetPairingCode (code : string)
  | IoConnection
  | IoCreateSession (o : nat) (data_sessionId : option string) (now : Z)
  | IoGetQr (o : nat) (data_sessionId : option string)
  | IoDisconnect (o : nat).

Definition connection_update (s : nat) (u : Update) (st : State) : State :=
  match sockets st !! s with
  | Some sk => on_update (sock_session sk) s u st
  | None => st
  end.

Definition connected_observer (o : nat) (st : State) : bool :=
  bool_decide (o ∈ observers st).

Definition step (st : State) (e : Event) : State * option Response :=
  match e with
  | Listen => (createWhatsAppConnection None st, None)
  | Settle i o => (settle i o st, None)
  | SockUserSet s su =>
      (with_sockets (alter (λ sk, mkSock (sock_session sk) su) s (sockets st)) st, None)
  | ConnectionUpdate s u => (connection_update s u st, None)
  | TimerFires i => (timer_fires i st, None)
  | GetSessions => (st, Some (get_sessions st))
  | PostCreateSession b now =>
      let res := post_create_session b now st in (res.1, Some res.2)
  | PostPairWithCode c p ok =>
      let res := post_pair_with_code c p ok st in (res.1, Some res.2)
  | GetQr k ok => (st, Some (get_qr k ok st))
  | GetPairingCode c => (st, Some (get_pairing_code c st))
  | IoConnection => (io_connection st, None)
  | IoCreateSession o d now =>
      (if connected_observer o st then io_create_session d now st else st, None)
  | IoGetQr o d =>
      (if connected_observer o st then io_get_qr o d st else st, None)
  | IoDisconnect o => (io_disconnect o st, None)
  end.

Definition run (st : State) (es : list Event) : State :=
  foldl (λ st e, (step st e).1) st es.

Definition reachable (st : State) : Prop := ∃ es, st = run initial es.

(** ** The single-session bot

    The second source file keeps one connection in module-level variables
    ([sock], [qr], [status], [isConnecting]) instead of a registry.  Its
    handler has no [await]; [connectToWhatsApp] has two, inside a [try]. *)

Module Bot.

Inductive Status : Type :=
  | disconnected | connecting | qr_ready | connected | error.

Inductive Msg : Type :=
  | msg_status (s : Status)
  | msg_qr (q : string)
  | msg_connected
  | msg_logout
  | msg_error.

Inductive Task : Type := AwaitAuthState | AwaitVersion.

Record State : Type := mkState {
  sock : option nat;
  socks : nat;               (* handles made so far *)
  qr : string;
  status : Status;
  isConnecting : bool;
  tasks : list Task;
  timers : list N;           (* delays of the pending [setTimeout]s *)
  emitted : list Msg
}.

Definition initial : State := mkState None 0 "" disconnected false [] [] [].

Definition emit (m : Msg) (st : State) : State :=
  mkState (sock st) (socks st) (qr st) (status st) (isConnecting st)
          (tasks st) (timers st) (emitted st ++ [m]).
Definition set_status (v : Status) (st : State) : State :=
  mkState (sock st) (socks st) (qr st) v (isConnecting st)
          (tasks st) (timers st) (emitted st).
Definition set_isConnecting (v : bool) (st : State) : State :=
  mkState (sock st) (socks st) (qr st) (status st) v
          (tasks st) (timers st) (emitted st).
Definition set_qr (v : string) (st : State) : State :=
  mkState (sock st) (socks st) v (status st) (isConnecting st)
          (tasks st) (timers st) (emitted st).
Definition set_tasks (v : list Task) (st : State) : State :=
  mkState (sock st) (socks st) (qr st) (status st) (isConnecting st)
          v (timers st) (emitted st).
Definition setTimeout (delay : N) (st : State) : State :=
  mkState (sock st) (socks st) (qr st) (status st) (isConnecting st)
          (tasks st) (timers st ++ [delay]) (emitted st).
Definition new_sock (st : State) : State :=
  mkState (Some (socks st)) (S (socks st)) (qr st) (status st) (isConnecting st)
          (tasks st) (timers st) (emitted st).

(** [connectToWhatsApp] up to its first [await]. *)
Definition connectToWhatsApp (st : State) : State :=
  if isConnecting st then st
  else
    let st := set_isConnecting true st in
    let st := set_status connecting st in
    let st := emit (msg_status (status st)) st in
    set_tasks (tasks st ++ [AwaitAuthState]) st.

(** The [catch] block. *)
Definition connect_failed (st : State) : State :=
  let st := set_status error st in
  let st := set_isConnecting false st in
  let st := emit (msg_status (status st)) st in
  let st := emit msg_error st in
  setTimeout 10000%N st.

(** The [i]-th pending [await] settles. *)
Definition settle (i : nat) (ok : bool) (st : State) : State :=
  match tasks st !! i with
  | None => st
  | Some t =>
      let st := set_tasks (delete i (tasks st)) st in
      if ok then
        match t with
        | AwaitAuthState => set_tasks (tasks st ++ [AwaitVersion]) st
        | AwaitVersion => new_sock st
        end
      else connect_failed st
  end.

(** The [connection.update] handler.  The open branch reads [sock.user] on
    the module-level [sock]: when that is null (after a restart) the read
    throws and [connected] is not emitted; what was assigned and emitted
    before stays, and the close branch, skipped by the exception, would not
    have run for an open event anyway. *)
Definition on_update (u : Update) (st : State) : State :=
  let st :=
    if Js.truthy (u_qr u) then
      let st := set_qr (default "" (u_qr u)) st in
      let st := emit (msg_qr (default "" (u_qr u))) st in
      let st := set_status qr_ready st in
      emit (msg_status (status st)) st
    else st in
  let st :=
    if bool_decide (connection u = Some conn_open) then
      let st := set_status connected st in
      let st := set_isConnecting false st in
      let st := emit (msg_status (status st)) st in
      match sock st with
      | Some _ => emit msg_connected st
      | None => st
      end
    else st in
  if bool_decide (connection u = Some conn_close) then
    let st := set_status disconnected st in
    let st := set_isConnecting false st in
    let shouldReconnect :=
      negb (bool_decide (statusCode u = Some DisconnectReason_loggedOut)) in
    let st := emit (msg_status (status st)) st in
    if shouldReconnect then setTimeout 5000%N st else emit msg_logout st
  else st.

(** The [i]-th timer fires: [connectToWhatsApp] is called. *)
Definition timer_fires (i : nat) (st : State) : State :=
  match timers st !! i with
  | Some _ =>
      connectToWhatsApp
        (mkState (sock st) (socks st) (qr st) (status st) (isConnecting st)
                 (tasks st) (delete i (timers st)) (emitted st))
  | None => st
  end.

End Bot.

(** ** What a step may do to a record, and what stays true of the registry *)

(** The handler only ever assigns [qr], [status], [socket], [user] and
    [qrImage]; a stored challenge is overwritten, never cleared. *)
Definition rec_le (a b : SessionData) : Prop :=
  id b = id a ∧ pairingCode b = pairingCode a ∧ createdAt b = createdAt a
  ∧ authState b = authState a
  ∧ (Js.truthy (qr a) = true → Js.truthy (qr b) = true).

(** A record in status [qr_ready] holds a challenge. *)
Definition qr_ok (sd : SessionData) : Prop :=
  status sd = qr_ready → Js.truthy (qr sd) = true.

(** An assignment the handler may perform. *)
Definition safe (f : SessionData → SessionData) : Prop :=
  ∀ sd, rec_le sd (f sd) ∧ (qr_ok sd → qr_ok (f sd)).

(** References held by the two maps point into the store, a code is bound to
    a record carrying that code, and [qr_ok] holds of every record. *)
Record RegInv (st : State) : Prop := mkRegInv {
  inv_refs : Forall (λ r, r < length (store st)) (JsMap.values (activeSessions st));
  inv_keys : NoDup (JsMap.keys (activeSessions st));
  inv_codes : ∀ code r, pairingCodes st !! code = Some r →
                ∃ sd, store st !! r = Some sd ∧ pairingCode sd = code;
  inv_qr : Forall qr_ok (store st)
}.

(** Observer ids are allocated in order, so nothing was ever delivered to an
    id not yet allocated. *)
Record ObsInv (st : State) : Prop := mkObsInv {
  inv_delivered : Forall (λ d, d.1 < nextObserver st) (delivered st);
  inv_observers : Forall (λ o, o < nextObserver st) (observers st)
}.

(** [st'] comes after [st]: records persist and change by safe assignments
    only, no key and no code is ever unbound, deliveries are append-only. *)
Record extends (st st' : State) : Prop := mkExtends {
  ext_store : ∀ r sd, store st !! r = Some sd →
                ∃ sd', store st' !! r = Some sd' ∧ rec_le sd sd';
  ext_codes : ∀ code, is_Some (pairingCodes st !! code) →
                is_Some (pairingCodes st' !! code);
  ext_keys : ∀ k, is_Some (JsMap.get k (activeSessions st)) →
                is_Some (JsMap.get k (activeSessions st'));
  ext_delivered : ∃ l, delivered st' = delivered st ++ l
}.

(** Unfolds the handlers down to the primitive state updates. *)
Ltac unfold_handlers :=
  unfold step, settle, connection_update, on_update, on_update_qr_resume,
    on_update_conn, on_update_open_emit, timer_fires, createWhatsAppConnection,
    createWhatsAppConnection_socket, post_create_session,
    io_create_session, io_get_qr; cbv zeta.

(** ** Concrete runs used in examples *)

(** Draws 0, 1, ..., 7: the code [ABCDEFGH]. *)
Definition draws_AH : nat → nat := λ i, i.

Definition challenge : Update := mkUpdate None None (Some "2@challenge").
Definition opened : Update := mkUpdate (Some conn_open) None None.
Definition closed_restart : Update := mkUpdate (Some conn_close) (Some 515%Z) None.
Definition closed_loggedOut : Update :=
  mkUpdate (Some conn_close) (Some DisconnectReason_loggedOut) None.

(** Startup: the default session is created at time 5 and gets its socket. *)
Definition startup : list Event :=
  [Listen; Settle 0 (resolved_authState 5 5 draws_AH); Settle 0 resolved_version].

(** Draws 35, 34, ..., 28: the code [98765432]. *)
Definition draws_98 : nat → nat := λ i, 35 - i.

(** ** Life cycle of a record *)

(** The record has its socket: only such records receive handler events. *)
Definition live (sd : SessionData) : Prop := is_Some (socket sd).

(** The record has received a challenge. *)
Definition challenged (sd : SessionData) : Prop :=
  Js.truthy (qr sd) = true ∧ status sd ≠ initializing.

(** What holds of every record: its id is not empty; without a socket it is
    still [initializing]; while [initializing] it has no challenge, no user
    and no image; an image comes with a challenge. *)
Definition rec_inv (sd : SessionData) : Prop :=
  id sd ≠ ""
  ∧ (socket sd = None → status sd = initializing)
  ∧ (status sd = initializing → qr sd = None ∧ user sd = None ∧ qrImage sd = None)
  ∧ (is_Some (qrImage sd) → Js.truthy (qr sd) = true).

(** What a pending continuation may rely on when it resumes. *)
Definition task_ok (st : State) (t : Task) : Prop :=
  match t with
  | AwaitAuthState _ => True
  | AwaitVersion r => is_Some (store st !! r)
  | AwaitQrImage r _ _ => ∃ sd, store st !! r = Some sd ∧ live sd ∧ challenged sd
  | AwaitProfilePicture r => ∃ sd, store st !! r = Some sd ∧ live sd
  end.

Record LifeInv (st : State) : Prop := mkLifeInv {
  life_records : Forall rec_inv (store st);
  life_sockets : Forall (λ sk, ∃ sd, store st !! sock_session sk = Some sd ∧ live sd)
                        (sockets st);
  life_tasks : Forall (task_ok st) (tasks st)
}.

(** The record behind [r] exists and has its socket. *)
Definition live_at (r : nat) (st : State) : Prop :=
  ∃ sd, store st !! r = Some sd ∧ live sd.

(** Records persist from [st] to [st'] and stay live and challenged. *)
Definition grows (st st' : State) : Prop :=
  ∀ r sd, store st !! r = Some sd →
    ∃ sd', store st' !! r = Some sd' ∧ (live sd → live sd')
           ∧ (challenged sd → challenged sd').

(** Observer [o] has left (or was never connected) and [l] is all it was ever
    sent. *)
Record Gone (o : nat) (l : list (nat * Msg)) (st : State) : Prop := mkGone {
  gone_observers : o ∉ observers st;
  gone_allocated : o < nextObserver st;
  gone_delivered : filter (λ d, d.1 = o) (delivered st) = l
}.

(** The character of the alphabet a draw selects. *)
Definition alphabet_at (d : nat) : Ascii.ascii :=
  default Ascii.zero (String.list_ascii_of_string chars !! d).

(** The test of the phone number in [POST /api/pair-with-code]. *)
Definition phone_ok (cleanedNumber : string) : bool :=
  Js.startsWith "254" cleanedNumber && (String.length cleanedNumber =? 12)%nat.

(** ** The single-session bot: routes, greeting and incoming messages *)

Module BotApp.
Import Bot.

Global Instance BotStatus_eq_dec : EqDecision Status.
Proof. solve_decision. Defined.

(** [hay.includes(needle)]. *)
Definition includes (needle hay : string) : bool :=
  match String.index 0 needle hay with
  | Some _ => true
  | None => false
  end.

(** [GET /api/status]; [sock_user] is the [user] property of the current
    socket. *)
Record StatusReply : Type := mkStatusReply {
  reply_status : Status;
  reply_qr_available : bool;        (* ['available'] or ['none'] *)
  reply_connected : bool;
  reply_user : option SockUser
}.

Definition api_status (sock_user : option SockUser) (st : State) : StatusReply :=
  mkStatusReply (status st)
                (negb (bool_decide (qr st = "")))
                (bool_decide (status st = connected))
                (match sock st with Some _ => sock_user | None => None end).

(** What the [messages.upsert] handler does: calls of [sock.sendMessage]
    and [message] events to the web clients (their timestamp left out). *)
Inductive Action : Type :=
  | act_send (jid text : string)
  | act_message (from text kind : string) (to : option string).

(** What [POST /api/send] does besides answering: the call
    [sock.sendMessage (jid, { text })] and the [message] event for the web
    clients, with the values as they are passed. *)
Inductive SendAction : Type :=
  | send_message (jid text : Field)
  | emit_sent (text to : Field).

(** The [jid] of [POST /api/send]: [number.includes ('@') ? number :
    number + '@s.whatsapp.net'].  [None]: [number] has no [includes] and the
    call throws. *)
Definition jid_of (number : Field) : option Field :=
  match number with
  | field_string n =>
      Some (field_string (if includes "@" n then n else n +:+ "@s.whatsapp.net"))
  | field_array has_at shown =>
      Some (if has_at then number else field_string (shown +:+ "@s.whatsapp.net"))
  | field_other _ => None
  end.

(** [POST /api/send]; [send_ok] tells whether [sendMessage] resolves.  With
    [sock] null the call throws inside the [try].  The body of the answer is
    its message, [None] standing for the [error.message] of a caught
    exception. *)
Definition api_send (number message : Field) (send_ok : bool)
    (st : State) : list SendAction * (nat * option string) :=
  if negb (field_truthy number) || negb (field_truthy message) then
    ([], (400, Some "Number and message are required"))
  else if negb (bool_decide (status st = connected)) then
    ([], (400, Some "Bot is not connected"))
  else
    match jid_of number with
    | None => ([], (500, None))
    | Some jid =>
        match sock st with
        | None => ([], (500, None))
        | Some _ =>
            if send_ok then
              ([send_message jid message; emit_sent message number],
               (200, Some "Message sent"))
            else ([send_message jid message], (500, None))
        end
    end.

(** [POST /api/restart] up to its timer: the socket is ended and dropped,
    the credentials are removed and [connectToWhatsApp] is scheduled. *)
Definition api_restart (st : State) : State :=
  setTimeout 2000%N
    (mkState None (socks st) (qr st) (status st) (isConnecting st)
             (tasks st) (timers st) (emitted st)).

(** [io.on ('connection', ...)]: what a new web client is sent. *)
Definition greeting (sock_user : option SockUser) (st : State) : list Msg :=
  [msg_status (status st)]
  ++ (if negb (bool_decide (qr st = "")) then [msg_qr (qr st)] else [])
  ++ (if bool_decide (status st = connected)
         && match sock st with Some _ => bool_decide (is_Some sock_user) | None => false end
      then [msg_connected] else []).

(** An incoming message, as far as the handler reads it. *)
Record WAMessage : Type := mkWAMessage {
  fromMe : bool;
  remoteJid : string;
  conversation : option string;
  extendedText : option string;
  imageCaption : option string
}.

(** [conversation || extendedTextMessage?.text || imageMessage?.caption || ''] *)
Definition text_of (m : WAMessage) : string :=
  Js.or_else (conversation m) (Js.or_else (extendedText m) (Js.or_else (imageCaption m) "")).

Definition auto_reply : string := "Hello! I am IAN TECH Bot. How can I help you?".

(** The loop of the [messages.upsert] handler; [lower] is [toLowerCase].
    [send j] tells what happens when the reply to the [j]-th message of the
    batch is attempted: [None] when [sock] is null then (the call throws
    before anything is sent), otherwise whether [sendMessage] resolves.  An
    exception leaves the handler, ending the loop. *)
Fixpoint upsert_loop (lower : string → string) (send : nat → option bool) (j : nat)
    (messages : list WAMessage) : list Action :=
  match messages with
  | [] => []
  | m :: rest =>
      if fromMe m then upsert_loop lower send (S j) rest
      else
        let text := text_of m in
        act_message (remoteJid m) text "received" None ::
        if includes "hello" (lower text) || includes "hi" (lower text) then
          match send j with
          | None => []
          | Some ok =>
              act_send (remoteJid m) auto_reply ::
              if ok then
                act_message "Bot" auto_reply "sent" None
                :: upsert_loop lower send (S j) rest
              else []
          end
        else upsert_loop lower send (S j) rest
  end.

Definition messages_upsert (lower : string → string) (send : nat → option bool)
    (type : string) (messages : list WAMessage) : list Action :=
  if negb (bool_decide (type = "notify")) then []
  else upsert_loop lower send 0 messages.

(** The [received] events among the actions: sender and text. *)
Definition received_of (a : Action) : option (string * string) :=
  match a with
  | act_message from text kind _ =>
      if bool_decide (kind = "received") then Some (from, text) else None
  | act_send _ _ => None
  end.

(** The test that triggers the automatic reply. *)
Definition greets (lower : string → string) (m : WAMessage) : bool :=
  includes "hello" (lower (text_of m)) || includes "hi" (lower (text_of m)).

(** The bot's event loop. *)
Inductive Event : Type :=
  | Listen                         (* the [server.listen] callback *)
  | Settle (i : nat) (ok : bool)
  | Update (u : Update)
  | TimerFires (i : nat)
  | Restart.

Definition step (st : State) (e : Event) : State :=
  match e with
  | Listen => connectToWhatsApp st
  | Settle i ok => settle i ok st
  | Update u => on_update u st
  | TimerFires i => timer_fires i st
  | Restart => api_restart st
  end.

Definition run (st : State) (es : list Event) : State := foldl step st es.

Definition reachable (st : State) : Prop := ∃ es, st = run initial es.

End BotApp.

(** * Properties *)

(** ** Facts about the insertion-ordered map *)

Module JsMapFacts.
Import JsMap.

Section facts.
Context {V : Type}.
Implicit Types (m : t V) (k : string) (v : V).

Lemma get_set_eq k v m : get k (set k v m) = Some v.
Proof.
  induction m as [|[k' v'] m IH]; simpl.
  - by rewrite decide_True.
  - destruct (decide (k = k')) as [->|Hne]; simpl.
    + by rewrite decide_True.
    + by rewrite decide_False.
Qed.

Lemma get_set_ne k k' v m : k ≠ k' → get k' (set k v m) = get k' m.
Proof.
  intros Hne. induction m as [|[k0 v0] m IH]; simpl.
  - by rewrite decide_False.
  - destruct (decide (k = k0)) as [->|Hk]; simpl.
    + by rewrite !decide_False.
    + destruct (decide (k' = k0)); done.
Qed.


Lemma get_None_keys k m : get k m = None ↔ k ∉ keys m.
Proof.
  unfold keys. induction m as [|[k' v'] m IH]; simpl.
  - split; [intros _; apply not_elem_of_nil | done].
  - rewrite not_elem_of_cons. destruct (decide (k = k')); naive_solver.
Qed.

Lemma values_set (P : V → Prop) k v m :
  Forall P (values m) → P v → Forall P (values (set k v m)).
Proof.
  unfold values. intros Hm Hv. induction m as [|[k' v'] m IH]; simpl in *.
  - by constructor.
  - inversion_clear Hm. destruct (decide (k = k')); simpl; constructor; auto.
Qed.

Lemma keys_set_elem k k' v m : k' ∈ keys (set k v m) ↔ k' = k ∨ k' ∈ keys m.
Proof.
  unfold keys. induction m as [|[k0 v0] m IH]; simpl.
  - rewrite list_elem_of_singleton. split; [auto | intros [?|H]; [done|]].
    by apply not_elem_of_nil in H.
  - destruct (decide (k = k0)) as [->|Hk]; simpl; rewrite !elem_of_cons;
      [| rewrite IH]; naive_solver.
Qed.

(** A [Map] never holds a key twice. *)
Lemma keys_set_NoDup k v m : NoDup (keys m) → NoDup (keys (set k v m)).
Proof.
  unfold keys. induction m as [|[k' v'] m IH]; simpl; intros Hm.
  - apply NoDup_singleton.
  - apply NoDup_cons in Hm as [Hk' Hm].
    destruct (decide (k = k')) as [->|Hk]; simpl; apply NoDup_cons.
    + done.
    + split; [| by apply IH].
      intros Hin. apply (keys_set_elem k k' v m) in Hin. naive_solver.
Qed.

Lemma size_values m : length (values m) = size m.
Proof. unfold values, size. apply length_fmap. Qed.

End facts.
End JsMapFacts.

Lemma rec_le_refl sd : rec_le sd sd.
Proof. by repeat split. Qed.

Lemma rec_le_trans a b c : rec_le a b → rec_le b c → rec_le a c.
Proof.
  intros (?&?&?&?&?) (?&?&?&?&?). repeat split; try congruence. auto.
Qed.

Lemma safe_set_status v : v ≠ qr_ready → safe (set_status v).
Proof. intros Hv sd. split; [by repeat split | intros _ Hs; by simpl in Hs]. Qed.

Lemma safe_set_socket v : safe (set_socket v).
Proof. intros sd. split; [by repeat split | done]. Qed.

Lemma safe_set_user v : safe (set_user v).
Proof. intros sd. split; [by repeat split | done]. Qed.

Lemma safe_set_qrImage v : safe (set_qrImage v).
Proof. intros sd. split; [by repeat split | done]. Qed.

Lemma safe_challenge q :
  Js.truthy q = true → safe (set_status qr_ready ∘ set_qr q).
Proof. intros Hq sd. split; [by repeat split | by intros _ _]. Qed.

Create HintDb inv discriminated.

#[local] Hint Resolve safe_set_socket safe_set_user safe_set_qrImage safe_challenge : inv.
#[local] Hint Extern 1 (safe (set_status _)) => (apply safe_set_status; discriminate) : inv.

(** *** Preservation of [RegInv] *)

Section reg_inv.
Context (st : State) (Hinv : RegInv st).

Lemma RegInv_with_sockets v : RegInv (with_sockets v st).
Proof. by destruct Hinv. Qed.
Lemma RegInv_with_tasks v : RegInv (with_tasks v st).
Proof. by destruct Hinv. Qed.
Lemma RegInv_with_timers v : RegInv (with_timers v st).
Proof. by destruct Hinv. Qed.
Lemma RegInv_with_observers v n : RegInv (with_observers v n st).
Proof. by destruct Hinv. Qed.
Lemma RegInv_with_delivered v : RegInv (with_delivered v st).
Proof. by destruct Hinv. Qed.
Lemma RegInv_with_sendCalls v : RegInv (with_sendCalls v st).
Proof. by destruct Hinv. Qed.

Lemma RegInv_mutate r f : safe f → RegInv (mutate r f st).
Proof.
  intros Hf. destruct Hinv as [Hrefs Hkeys Hcodes Hqr].
  split; simpl; [by rewrite length_alter | done | | ].
  - intros code r' Hc. destruct (Hcodes code r' Hc) as (sd & Hsd & Hcode).
    rewrite list_lookup_alter. destruct (decide (r = r')) as [->|].
    + rewrite Hsd. simpl. eexists; split; [done|].
      destruct (Hf sd) as [(_ & -> & _) _]. done.
    + eauto.
  - apply Forall_alter; [done|]. intros sd _. apply Hf.
Qed.

Lemma RegInv_register sid now created rnd :
  RegInv (createWhatsAppConnection_register sid now created rnd st).
Proof.
  destruct Hinv as [Hrefs Hkeys Hcodes Hqr].
  split; simpl.
  - rewrite length_app. simpl. apply JsMapFacts.values_set; [|lia].
    eapply Forall_impl; [exact Hrefs|]. simpl. lia.
  - by apply JsMapFacts.keys_set_NoDup.
  - intros code r. rewrite lookup_insert. case_decide as Hc.
    + intros [= <-]. eexists. split; [by apply list_lookup_middle|]. by subst.
    + intros Hr. destruct (Hcodes code r Hr) as (sd & Hsd & Hcode).
      exists sd. split; [|done]. rewrite lookup_app_l; [done|].
      by eapply lookup_lt_Some.
  - apply Forall_app. split; [done|]. by repeat constructor.
Qed.
End reg_inv.

#[local] Hint Resolve RegInv_with_sockets RegInv_with_tasks RegInv_with_timers
  RegInv_with_observers RegInv_with_delivered RegInv_with_sendCalls
  RegInv_mutate RegInv_register : inv.

(** The pairing route changes nothing but the log of [sendMessage] calls. *)
Lemma post_pair_with_code_state c p ok st :
  (post_pair_with_code c p ok st).1 = st
  ∨ ∃ o, (post_pair_with_code c p ok st).1 = with_sendCalls (sendCalls st ++ [o]) st.
Proof.
  unfold post_pair_with_code. repeat case_match; simpl; eauto.
Qed.

Lemma RegInv_post_pair_with_code c p ok st :
  RegInv st → RegInv (post_pair_with_code c p ok st).1.
Proof.
  intros Hinv. destruct (post_pair_with_code_state c p ok st) as [->|[o ->]];
    eauto with inv.
Qed.

#[local] Hint Resolve RegInv_post_pair_with_code : inv.

Lemma RegInv_initial : RegInv initial.
Proof.
  split; simpl; [constructor | constructor | | constructor].
  intros code r Hr. by rewrite lookup_empty in Hr.
Qed.

Lemma RegInv_step st e : RegInv st → RegInv (step st e).1.
Proof.
  intros Hinv. destruct e; unfold_handlers;
    unfold io_connection, io_disconnect, io_emit, socket_emit; cbv zeta;
    repeat case_match; simpl; eauto 12 with inv.
Qed.

(** *** Preservation of [ObsInv] *)

Section obs_inv.
Context (st : State) (Hinv : ObsInv st).

Lemma ObsInv_with_store v : ObsInv (with_store v st).
Proof. by destruct Hinv. Qed.
Lemma ObsInv_with_sockets v : ObsInv (with_sockets v st).
Proof. by destruct Hinv. Qed.
Lemma ObsInv_with_tasks v : ObsInv (with_tasks v st).
Proof. by destruct Hinv. Qed.
Lemma ObsInv_with_timers v : ObsInv (with_timers v st).
Proof. by destruct Hinv. Qed.
Lemma ObsInv_with_sendCalls v : ObsInv (with_sendCalls v st).
Proof. by destruct Hinv. Qed.
Lemma ObsInv_mutate r f : ObsInv (mutate r f st).
Proof. by destruct Hinv. Qed.
Lemma ObsInv_register sid now created rnd :
  ObsInv (createWhatsAppConnection_register sid now created rnd st).
Proof. by destruct Hinv. Qed.

Lemma ObsInv_io_emit m : ObsInv (io_emit m st).
Proof.
  destruct Hinv as [Hd Ho]. split; simpl; [|done].
  apply Forall_app. split; [done|]. by apply Forall_fmap.
Qed.

Lemma ObsInv_socket_emit o m : connected_observer o st = true → ObsInv (socket_emit o m st).
Proof.
  intros Hc%bool_decide_eq_true. destruct Hinv as [Hd Ho]. split; simpl; [|done].
  apply Forall_app. split; [done|]. repeat constructor. simpl.
  by eapply Forall_forall in Ho.
Qed.

Lemma ObsInv_io_connection : ObsInv (io_connection st).
Proof.
  destruct Hinv as [Hd Ho]. split; simpl.
  - apply Forall_app. split; [|repeat constructor; simpl; lia].
    eapply Forall_impl; [exact Hd|]. simpl. lia.
  - apply Forall_app. split; [|repeat constructor; lia].
    eapply Forall_impl; [exact Ho|]. simpl. lia.
Qed.

Lemma ObsInv_io_disconnect o : ObsInv (io_disconnect o st).
Proof.
  destruct Hinv as [Hd Ho]. split; simpl; [done|].
  apply Forall_forall. intros o' [_ Hin]%list_elem_of_filter.
  by eapply Forall_forall in Ho.
Qed.
End obs_inv.

#[local] Hint Resolve ObsInv_with_store ObsInv_with_sockets ObsInv_with_tasks
  ObsInv_with_timers ObsInv_with_sendCalls ObsInv_mutate ObsInv_register
  ObsInv_io_emit ObsInv_socket_emit ObsInv_io_connection ObsInv_io_disconnect : inv.

Lemma ObsInv_initial : ObsInv initial.
Proof. split; constructor. Qed.

Lemma ObsInv_post_pair_with_code c p ok st :
  ObsInv st → ObsInv (post_pair_with_code c p ok st).1.
Proof.
  intros Hinv. destruct (post_pair_with_code_state c p ok st) as [->|[o ->]];
    eauto with inv.
Qed.

#[local] Hint Resolve ObsInv_post_pair_with_code : inv.

Lemma ObsInv_step st e : ObsInv st → ObsInv (step st e).1.
Proof.
  intros Hinv. destruct e; unfold_handlers;
    repeat case_match; simpl; eauto 12 with inv.
Qed.

(** *** Every step extends the state *)

Lemma extends_refl st : extends st st.
Proof.
  split; [| done | done | exists []; by rewrite app_nil_r].
  intros r sd Hsd. exists sd. split; [done | apply rec_le_refl].
Qed.

Lemma extends_trans st1 st2 st3 : extends st1 st2 → extends st2 st3 → extends st1 st3.
Proof.
  intros [Hs1 Hc1 Hk1 [l1 Hd1]] [Hs2 Hc2 Hk2 [l2 Hd2]]. split; [| auto | auto |].
  - intros r sd Hsd. destruct (Hs1 r sd Hsd) as (sd1 & Hsd1 & Hle1).
    destruct (Hs2 r sd1 Hsd1) as (sd2 & Hsd2 & Hle2).
    exists sd2. split; [done | by eapply rec_le_trans].
  - exists (l1 ++ l2). by rewrite Hd2, Hd1, app_assoc.
Qed.

Section extends.
Context (st0 st : State) (Hext : extends st0 st).

Lemma extends_with_sockets v : extends st0 (with_sockets v st).
Proof. by destruct Hext. Qed.
Lemma extends_with_tasks v : extends st0 (with_tasks v st).
Proof. by destruct Hext. Qed.
Lemma extends_with_timers v : extends st0 (with_timers v st).
Proof. by destruct Hext. Qed.
Lemma extends_with_observers v n : extends st0 (with_observers v n st).
Proof. by destruct Hext. Qed.
Lemma extends_with_sendCalls v : extends st0 (with_sendCalls v st).
Proof. by destruct Hext. Qed.

Lemma extends_append l : extends st0 (with_delivered (delivered st ++ l) st).
Proof.
  destruct Hext as [Hs Hc Hk [l0 Hd]]. split; [done..|].
  exists (l0 ++ l). simpl. by rewrite Hd, app_assoc.
Qed.

Lemma extends_io_emit m : extends st0 (io_emit m st).
Proof. apply extends_append. Qed.

Lemma extends_socket_emit o m : extends st0 (socket_emit o m st).
Proof. apply extends_append. Qed.

Lemma extends_mutate r f : safe f → extends st0 (mutate r f st).
Proof.
  intros Hf. eapply extends_trans; [exact Hext|].
  split; [| done | done | exists []; by rewrite app_nil_r].
  intros r' sd Hsd. simpl. rewrite list_lookup_alter.
  destruct (decide (r = r')) as [->|].
  - rewrite Hsd. eexists. split; [done | apply Hf].
  - exists sd. split; [done | apply rec_le_refl].
Qed.

Lemma extends_register sid now created rnd :
  extends st0 (createWhatsAppConnection_register sid now created rnd st).
Proof.
  eapply extends_trans; [exact Hext|].
  split; simpl; [| | | exists []; by rewrite app_nil_r].
  - intros r sd Hsd. exists sd. split; [|apply rec_le_refl].
    rewrite lookup_app_l; [done|]. by eapply lookup_lt_Some.
  - intros code Hc. rewrite lookup_insert. by case_decide.
  - intros k Hk.
    destruct (decide (Js.or_else sid "default" = k)) as [<-|Hne].
    + by rewrite JsMapFacts.get_set_eq.
    + by rewrite JsMapFacts.get_set_ne.
Qed.
End extends.

#[local] Hint Resolve extends_refl extends_with_sockets extends_with_tasks
  extends_with_timers extends_with_observers extends_with_sendCalls
  extends_io_emit extends_socket_emit extends_mutate extends_register : inv.

Lemma extends_post_pair_with_code c p ok st0 st :
  extends st0 st → extends st0 (post_pair_with_code c p ok st).1.
Proof.
  intros Hext. destruct (post_pair_with_code_state c p ok st) as [->|[o ->]];
    eauto with inv.
Qed.

#[local] Hint Resolve extends_post_pair_with_code : inv.

Lemma extends_step st e : extends st (step st e).1.
Proof.
  destruct e; unfold_handlers; unfold io_connection, io_disconnect; cbv zeta;
    repeat case_match; simpl; eauto 12 with inv.
Qed.

(** *** Runs *)

Lemma run_snoc st es e : run st (es ++ [e]) = (step (run st es) e).1.
Proof. unfold run. by rewrite foldl_snoc. Qed.

Lemma run_app st es1 es2 : run st (es1 ++ es2) = run (run st es1) es2.
Proof. unfold run. by rewrite foldl_app. Qed.

Lemma extends_run st es : extends st (run st es).
Proof.
  induction es as [|e es IH] using rev_ind; [apply extends_refl|].
  rewrite run_snoc. eapply extends_trans; [exact IH | apply extends_step].
Qed.

(** Induction over the states the server can reach. *)
Lemma reachable_ind (P : State → Prop) :
  P initial → (∀ st e, P st → P (step st e).1) → ∀ st, reachable st → P st.
Proof.
  intros H0 Hstep st [es ->]. induction es as [|e es IH] using rev_ind; [done|].
  rewrite run_snoc. by apply Hstep.
Qed.

Lemma reachable_initial : reachable initial.
Proof. by exists []. Qed.

Lemma reachable_run st es : reachable st → reachable (run st es).
Proof. intros [es0 ->]. exists (es0 ++ es). by rewrite run_app. Qed.

Lemma reachable_RegInv st : reachable st → RegInv st.
Proof. apply reachable_ind; [apply RegInv_initial | intros; by apply RegInv_step]. Qed.

Lemma reachable_ObsInv st : reachable st → ObsInv st.
Proof. apply reachable_ind; [apply ObsInv_initial | intros; by apply ObsInv_step]. Qed.

Example generatePairingCode_draws_AH : generatePairingCode draws_AH = "ABCDEFGH".
Proof. reflexivity. Qed.

Lemma reachable_run_initial es : reachable (run initial es).
Proof. by exists es. Qed.

(** ** The generator *)

Lemma string_length_app (s1 s2 : string) :
  String.length (s1 +:+ s2) = String.length s1 + String.length s2.
Proof. induction s1 as [|c s1 IH]; simpl; [done | by rewrite IH]. Qed.

Lemma charAt_chars_length d : d < 36 → String.length (Js.charAt chars d) = 1.
Proof.
  intros Hd. do 36 (destruct d as [|d]; [reflexivity|]). lia.
Qed.

Lemma generatePairingCode_loop_length rnd i n code :
  (∀ j, rnd j < 36) →
  String.length (generatePairingCode_loop rnd i n code) = String.length code + n.
Proof.
  intros Hrnd. revert i code. induction n as [|n IH]; intros i code; simpl.
  - lia.
  - rewrite IH, string_length_app, charAt_chars_length by done. lia.
Qed.

(** With draws in range, which [Math.floor (Math.random () * 36)] are, the
    code has eight characters. *)
Lemma generatePairingCode_length rnd :
  (∀ j, rnd j < 36) → String.length (generatePairingCode rnd) = 8.
Proof. intros Hrnd. unfold generatePairingCode. by rewrite generatePairingCode_loop_length. Qed.

(** ** Uniqueness of ids and pairing codes (C1) *)

(** C1, as stated, fails.  The default session (id [IAN-TECH-5], stored
    under [default]) closes with a reason other than logged out, its timer
    fires and [createWhatsAppConnection ("IAN-TECH-5")] stores a second record
    under the key [IAN-TECH-5]: two distinct records of the registry have the
    same id.  The generator draws the same eight characters again; the code
    is used as drawn, nothing is rejected or retried, and both records carry
    the code [ABCDEFGH]. *)
Lemma C1_same_id_and_code :
  let st := run initial (startup ++ [ConnectionUpdate 0 closed_restart; TimerFires 0;
                                     Settle 0 (resolved_authState 9 9 draws_AH)]) in
  ∃ sd1 sd2,
    get "default" st = Some sd1 ∧ get "IAN-TECH-5" st = Some sd2 ∧ sd1 ≠ sd2
    ∧ status sd1 = disconnected ∧ status sd2 = initializing
    ∧ id sd1 = id sd2 ∧ pairingCode sd1 = pairingCode sd2.
Proof.
  simpl. eexists _, _. split; [reflexivity|]. split; [reflexivity|].
  split; [discriminate|]. by repeat split.
Qed.

(** C1, amended: in every reachable state the keys of [activeSessions] are
    pairwise distinct and a registered pairing code resolves to one record,
    which carries that code.  Creation never rejects and never retries: the
    code is used as drawn, the new record is stored under its key and under
    its code (rebinding both when they were bound) and the records created
    before are left as they were. *)
Theorem C1_registry_keys st :
  reachable st →
  NoDup (JsMap.keys (activeSessions st))
  ∧ (∀ code sd, getByPairingCode code st = Some sd → pairingCode sd = code)
  ∧ (∀ sid now created rnd,
       let st' := createWhatsAppConnection_register sid now created rnd st in
       ∃ sd, store st' !! length (store st) = Some sd
             ∧ pairingCode sd = generatePairingCode rnd
             ∧ getByPairingCode (generatePairingCode rnd) st' = Some sd
             ∧ get (Js.or_else sid "default") st' = Some sd
             ∧ ∀ r, r < length (store st) → store st' !! r = store st !! r).
Proof.
  intros [Hrefs Hkeys Hcodes _]%reachable_RegInv. split; [done|]. split.
  - intros code sd. unfold getByPairingCode.
    destruct (pairingCodes st !! code) as [r|] eqn:Hr; [simpl|done].
    destruct (Hcodes code r Hr) as (sd' & Hsd' & Hcode). congruence.
  - intros sid now created rnd. simpl. eexists. split; [by apply list_lookup_middle|].
    split; [done|]. unfold getByPairingCode, get. simpl.
    rewrite lookup_insert_eq, JsMapFacts.get_set_eq. simpl.
    rewrite list_lookup_middle by done. split; [done|]. split; [done|].
    intros r Hr. by apply lookup_app_l.
Qed.

Lemma C1_registry_keys_witness :
  NoDup (JsMap.keys (activeSessions (run initial startup)))
  ∧ (∀ code sd, getByPairingCode code (run initial startup) = Some sd →
       pairingCode sd = code)
  ∧ (∀ sid now created rnd,
       let st' := createWhatsAppConnection_register sid now created rnd
                    (run initial startup) in
       ∃ sd, store st' !! length (store (run initial startup)) = Some sd
             ∧ pairingCode sd = generatePairingCode rnd
             ∧ getByPairingCode (generatePairingCode rnd) st' = Some sd
             ∧ get (Js.or_else sid "default") st' = Some sd
             ∧ ∀ r, r < length (store (run initial startup)) →
                 store st' !! r = store (run initial startup) !! r).
Proof.
  apply (C1_registry_keys (run initial startup)). exists startup. reflexivity.
Defined.

(** ** Close events (C2, C3) *)

(** C2, as stated, fails: the connected default session receives a close
    event with reason logged out; afterwards its status is [disconnected]
    and its pairing code still resolves to it. *)
Lemma C2_code_not_released :
  let st := run initial (startup ++ [ConnectionUpdate 0 opened;
                                     ConnectionUpdate 0 closed_loggedOut]) in
  getByPairingCode "ABCDEFGH" st ≠ None
  ∧ status <$> getByPairingCode "ABCDEFGH" st = Some disconnected
  ∧ id <$> getByPairingCode "ABCDEFGH" st = Some "IAN-TECH-5"
  ∧ timers st = [].
Proof. by repeat split. Qed.

(** C2, amended: processing a close event whose reason is logged out sets
    the session's status to [disconnected], schedules no reconnection and
    leaves both maps as they are: the pairing code stays registered and a
    later lookup by it returns the session's record, now [disconnected]. *)
Theorem C2_loggedOut_close st r s u sd :
  store st !! r = Some sd →
  connection u = Some conn_close →
  statusCode u = Some DisconnectReason_loggedOut →
  let st' := on_update_conn r s u st in
  store st' !! r = Some (set_status disconnected sd)
  ∧ timers st' = timers st
  ∧ tasks st' = tasks st
  ∧ activeSessions st' = activeSessions st
  ∧ pairingCodes st' = pairingCodes st
  ∧ (pairingCodes st !! pairingCode sd = Some r →
     getByPairingCode (pairingCode sd) st' = Some (set_status disconnected sd))
  ∧ (sock_session <$> sockets st !! s = Some r → Js.truthy (u_qr u) = false →
     (step st (ConnectionUpdate s u)).1 = st').
Proof.
  intros Hsd Hc Hcode. cbv zeta. split_and!.
  1-6: unfold on_update_conn; rewrite Hc, Hcode;
       rewrite bool_decide_eq_true_2 by done; cbv zeta; simpl;
       rewrite list_lookup_alter_eq, Hsd; simpl; try done.
  - by rewrite list_lookup_alter_eq, Hsd.
  - intros Hr. unfold getByPairingCode. simpl. rewrite Hr. simpl.
    by rewrite list_lookup_alter_eq, Hsd.
  - intros Hs Hq. simpl. unfold connection_update, on_update.
    destruct (sockets st !! s) as [sk|]; [|done].
    injection Hs as <-. by rewrite Hq.
Qed.

Lemma C2_loggedOut_close_witness :
  let st := run initial (startup ++ [ConnectionUpdate 0 opened]) in
  let st' := on_update_conn 0 0 closed_loggedOut st in
  ∃ sd, store st !! 0 = Some sd
    ∧ store st' !! 0 = Some (set_status disconnected sd)
    ∧ timers st' = timers st
    ∧ tasks st' = tasks st
    ∧ activeSessions st' = activeSessions st
    ∧ pairingCodes st' = pairingCodes st
    ∧ (pairingCodes st !! pairingCode sd = Some 0 →
       getByPairingCode (pairingCode sd) st' = Some (set_status disconnected sd))
    ∧ (sock_session <$> sockets st !! 0 = Some 0 →
       Js.truthy (u_qr closed_loggedOut) = false →
       (step st (ConnectionUpdate 0 closed_loggedOut)).1 = st').
Proof.
  eexists. split; [reflexivity|].
  apply (C2_loggedOut_close (run initial (startup ++ [ConnectionUpdate 0 opened]))
           0 0 closed_loggedOut); reflexivity.
Defined.

(** One close event with a reason other than logged out, outside a pending
    [qr] branch: the handle's table is untouched and one timer is added. *)
Lemma close_schedules_one st s sk u :
  sockets st !! s = Some sk →
  Js.truthy (u_qr u) = false →
  connection u = Some conn_close →
  statusCode u ≠ Some DisconnectReason_loggedOut →
  sockets (connection_update s u st) = sockets st
  ∧ timers (connection_update s u st) = timers st ++ [sock_session sk].
Proof.
  intros Hs Hq Hc Hcode. unfold connection_update, on_update, on_update_conn.
  rewrite Hs, Hq, Hc. rewrite bool_decide_eq_false_2 by done. cbv zeta. simpl.
  by case_match.
Qed.

(** C3, as stated, fails: two close events with reason 515 (restart
    required) reach the default session before any timer fires, and two
    reconnection timers are outstanding for it. *)
Lemma C3_two_timers_outstanding :
  let st := run initial (startup ++ [ConnectionUpdate 0 opened;
                                     ConnectionUpdate 0 closed_restart;
                                     ConnectionUpdate 0 closed_restart]) in
  timers st = [0; 0] ∧ sock_session <$> sockets st !! 0 = Some 0.
Proof. by split. Qed.

(** C3, amended: each close event not classified logged out schedules
    exactly one delayed reconnection attempt (the [close] branch appends one
    timer for the session), and nothing deduplicates them: [n] such close
    events arriving before a timer fires leave [n] more timers outstanding
    for the session. *)
Theorem C3_close_schedules_each_time st u :
  connection u = Some conn_close →
  statusCode u ≠ Some DisconnectReason_loggedOut →
  (∀ r s, timers (on_update_conn r s u st) = timers st ++ [r])
  ∧ (∀ s sk n,
       sockets st !! s = Some sk →
       Js.truthy (u_qr u) = false →
       timers (run st (replicate n (ConnectionUpdate s u)))
       = timers st ++ replicate n (sock_session sk)).
Proof.
  intros Hc Hcode. split.
  - intros r s. unfold on_update_conn. rewrite Hc.
    rewrite bool_decide_eq_false_2 by done. cbv zeta. simpl. by case_match.
  - intros s sk n Hs Hq.
    cut (sockets (run st (replicate n (ConnectionUpdate s u))) = sockets st
         ∧ timers (run st (replicate n (ConnectionUpdate s u)))
           = timers st ++ replicate n (sock_session sk)); [by intros [_ ?]|].
    induction n as [|n [IHs IHt]].
    + simpl. by rewrite app_nil_r.
    + rewrite !replicate_S_end, run_snoc. simpl.
      destruct (close_schedules_one (run st (replicate n (ConnectionUpdate s u))) s sk u)
        as [Hs' Ht']; [by rewrite IHs | done..|].
      rewrite Hs', Ht', IHs, IHt. by rewrite app_assoc.
Qed.

Lemma C3_close_schedules_each_time_witness :
  let st := run initial startup in
  timers (on_update_conn 0 0 closed_restart st) = timers st ++ [0]
  ∧ timers (run st (replicate 3 (ConnectionUpdate 0 closed_restart)))
    = timers st ++ replicate 3 0.
Proof.
  pose proof (C3_close_schedules_each_time (run initial startup) closed_restart
                eq_refl ltac:(discriminate)) as [H1 H2].
  split.
  - apply H1.
  - apply (H2 0 (mkSock 0 None) 3); reflexivity.
Defined.

(** ** The stored challenge (C4, C5) *)

(** C4, as stated, fails: after a challenge and then an open event the
    session is [connected] and still stores the challenge. *)
Lemma C4_challenge_kept_when_connected :
  let st := run initial (startup ++ [ConnectionUpdate 0 challenge;
                                     Settle 0 (resolved_qrImage "data:image/png");
                                     ConnectionUpdate 0 opened]) in
  status <$> get "default" st = Some connected
  ∧ qr <$> get "default" st = Some (Some "2@challenge")
  ∧ qr <$> get "default" st ≠ Some None.
Proof. by repeat split. Qed.

(** C4, amended: in every reachable state a record whose status is
    [qr_ready] stores a challenge.  The converse does not hold, because no
    transition clears a stored challenge: once a record stores one, it stores
    one after every further run of events, whatever its status. *)
Theorem C4_qr_ready_has_challenge st r sd :
  reachable st →
  store st !! r = Some sd →
  (status sd = qr_ready → Js.truthy (qr sd) = true ∧ is_Some (qr sd))
  ∧ (Js.truthy (qr sd) = true →
     ∀ es, ∃ sd', store (run st es) !! r = Some sd' ∧ Js.truthy (qr sd') = true).
Proof.
  intros [_ _ _ Hqr]%reachable_RegInv Hsd. split.
  - intros Hst. eapply Forall_lookup_1 in Hqr; [|exact Hsd].
    specialize (Hqr Hst). split; [done|].
    destruct (qr sd); [by eexists | done].
  - intros Hq es. destruct (ext_store _ _ (extends_run st es) r sd Hsd)
      as (sd' & Hsd' & (_ & _ & _ & _ & Hmono)).
    exists sd'. auto.
Qed.

Lemma C4_qr_ready_has_challenge_witness :
  let st := run initial (startup ++ [ConnectionUpdate 0 challenge]) in
  ∃ sd, store st !! 0 = Some sd ∧ status sd = qr_ready
    ∧ (status sd = qr_ready → Js.truthy (qr sd) = true ∧ is_Some (qr sd))
    ∧ (Js.truthy (qr sd) = true →
       ∀ es, ∃ sd', store (run st es) !! 0 = Some sd' ∧ Js.truthy (qr sd') = true).
Proof.
  eexists. split; [reflexivity|]. split; [reflexivity|].
  apply (C4_qr_ready_has_challenge
           (run initial (startup ++ [ConnectionUpdate 0 challenge])) 0).
  - exists (startup ++ [ConnectionUpdate 0 challenge]). reflexivity.
  - reflexivity.
Defined.

(** C5, as stated, fails: the connected default session receives a
    challenge event and its status goes back to [qr_ready]. *)
Lemma C5_connected_regresses :
  let st := run initial (startup ++ [ConnectionUpdate 0 opened]) in
  status <$> get "default" st = Some connected
  ∧ status <$> get "default" (step st (ConnectionUpdate 0 challenge)).1 = Some qr_ready.
Proof. by split. Qed.

(** C5, amended: for every session, whatever its status ([connected]
    included), processing a challenge event stores the challenge and sets the
    status to [qr_ready]; no guard looks at the previous status. *)
Theorem C5_challenge_sets_qr_ready st s sk u sd :
  sockets st !! s = Some sk →
  store st !! sock_session sk = Some sd →
  Js.truthy (u_qr u) = true →
  store (step st (ConnectionUpdate s u)).1 !! sock_session sk
  = Some (set_status qr_ready (set_qr (u_qr u) sd)).
Proof.
  intros Hs Hsd Hq. simpl. unfold connection_update, on_update.
  rewrite Hs, Hq. simpl. by rewrite list_lookup_alter_eq, Hsd.
Qed.

Lemma C5_challenge_sets_qr_ready_witness :
  let st := run initial (startup ++ [ConnectionUpdate 0 opened]) in
  ∃ sd, store st !! 0 = Some sd ∧ status sd = connected
    ∧ store (step st (ConnectionUpdate 0 challenge)).1 !! 0
      = Some (set_status qr_ready (set_qr (u_qr challenge) sd)).
Proof.
  eexists. split; [reflexivity|]. split; [reflexivity|].
  apply (C5_challenge_sets_qr_ready
           (run initial (startup ++ [ConnectionUpdate 0 opened])) 0 (mkSock 0 None));
    reflexivity.
Defined.

(** ** Session creation (C6, C9) *)

(** C6, as stated, fails: the id [A] is in the registry; a second creation
    request with the id [A] is answered with status 200 (not 409), and when
    its creation runs the key [A] is bound to a new record. *)
Lemma C6_duplicate_id_accepted :
  let st := run initial [PostCreateSession (Some "A") 1;
                         Settle 0 (resolved_authState 1 1 draws_AH)] in
  let st' := run st [PostCreateSession (Some "A") 2;
                     Settle 1 (resolved_authState 2 2 draws_98)] in
  pairingCode <$> get "A" st = Some "ABCDEFGH"
  ∧ (step st (PostCreateSession (Some "A") 2)).2 = Some (json 200 (body_created None None))
  ∧ pairingCode <$> get "A" st' = Some "98765432"
  ∧ get "A" st' ≠ get "A" st.
Proof. repeat split; [reflexivity..|discriminate]. Qed.

(** C6, amended: for every caller-supplied session id, present in the
    registry or not, the creation request is answered with status 200 and
    only schedules the creation; nothing checks the registry.  When the
    creation runs, the key is bound to a new record in status
    [initializing]; the records created before stay in the store as they
    were. *)
Theorem C6_create_replaces st sid now :
  sid ≠ "" →
  let res := post_create_session (Some sid) now st in
  res.2 = json 200 (body_created None None)
  ∧ tasks res.1 = tasks st ++ [AwaitAuthState (Some sid)]
  ∧ store res.1 = store st
  ∧ activeSessions res.1 = activeSessions st
  ∧ pairingCodes res.1 = pairingCodes st
  ∧ ∀ st1 now' created rnd,
      let st2 := createWhatsAppConnection_register (Some sid) now' created rnd st1 in
      JsMap.get sid (activeSessions st2) = Some (length (store st1))
      ∧ get sid st2 = Some (mkSession sid (generatePairingCode rnd) None initializing
                                      None (AUTH_FOLDER +:+ "/" +:+ sid) created None None)
      ∧ ∀ r, r < length (store st1) → store st2 !! r = store st1 !! r.
Proof.
  intros Hsid.
  assert (Js.truthy (Some sid) = true) as Ht.
  { simpl. by rewrite bool_decide_eq_false_2. }
  assert (∀ d, Js.or_else (Some sid) d = sid) as Hor.
  { intros d. unfold Js.or_else. by rewrite Ht. }
  unfold post_create_session. cbv zeta. rewrite Hor. simpl.
  repeat split; try done.
  - rewrite Hor. apply JsMapFacts.get_set_eq.
  - unfold get. simpl. rewrite !Hor, JsMapFacts.get_set_eq. simpl.
    rewrite list_lookup_middle by done. by rewrite bool_decide_eq_false_2.
  - by apply lookup_app_l.
Qed.

Lemma C6_create_replaces_witness :
  let st := run initial [PostCreateSession (Some "A") 1;
                         Settle 0 (resolved_authState 1 1 draws_AH)] in
  let res := post_create_session (Some "A") 2 st in
  is_Some (get "A" st)
  ∧ res.2 = json 200 (body_created None None)
  ∧ tasks res.1 = tasks st ++ [AwaitAuthState (Some "A")]
  ∧ store res.1 = store st
  ∧ activeSessions res.1 = activeSessions st
  ∧ pairingCodes res.1 = pairingCodes st
  ∧ ∀ st1 now' created rnd,
      let st2 := createWhatsAppConnection_register (Some "A") now' created rnd st1 in
      JsMap.get "A" (activeSessions st2) = Some (length (store st1))
      ∧ get "A" st2 = Some (mkSession "A" (generatePairingCode rnd) None initializing
                                      None (AUTH_FOLDER +:+ "/" +:+ "A") created None None)
      ∧ ∀ r, r < length (store st1) → store st2 !! r = store st1 !! r.
Proof.
  split; [by eexists|].
  apply (C6_create_replaces
           (run initial [PostCreateSession (Some "A") 1;
                         Settle 0 (resolved_authState 1 1 draws_AH)]) "A" 2).
  discriminate.
Defined.

(** The value of [v || d] is never falsy when [d] is not. *)
Lemma or_else_truthy v d : d ≠ "" → Js.or_else v d ≠ "".
Proof.
  intros Hd. unfold Js.or_else. destruct (Js.truthy v) eqn:Hv; [|done].
  destruct v as [s|]; [simpl in *|done].
  by apply negb_true_iff, bool_decide_eq_false in Hv.
Qed.

(** Both creation entry points (the HTTP route and the socket.io message)
    generate an id themselves when the caller sends none, so they always call
    [createWhatsAppConnection] with an id; only the startup call passes
    none. *)
Lemma routes_supply_id b now st :
  ∃ sid, sid ≠ ""
    ∧ tasks (post_create_session b now st).1 = tasks st ++ [AwaitAuthState (Some sid)]
    ∧ tasks (io_create_session b now st) = tasks st ++ [AwaitAuthState (Some sid)].
Proof.
  exists (Js.or_else b ("IAN-TECH-" +:+ pretty now)).
  split; [by apply or_else_truthy | done].
Qed.






(** ** Pairing verification (C7) *)

(** C7, as stated, fails: the default session is [qr_ready], so not
    connected, and its code resolves; a request whose [phoneNumber] is a JSON
    number (truthy, not a string) makes [phoneNumber.replace] throw, and the
    [catch] answers 500, which is no 4xx result. *)
Lemma C7_non_string_phone_gives_500 :
  let st := run initial (startup ++ [ConnectionUpdate 0 challenge]) in
  status <$> getByPairingCode "ABCDEFGH" st = Some qr_ready
  ∧ (post_pair_with_code (field_string "ABCDEFGH") (field_other true) true st).2
    = json 500 body_thrown.
Proof. by split. Qed.

(** C7, amended: when the code of a pairing request resolves to a session,
    the answer is a success only if that session is [connected]; for every
    other status [sendMessage] is not called and the state is untouched, and
    the answer is a 400 whenever the [phoneNumber] field is a string or is
    falsy (for a well-formed request: "Session not connected yet").  In
    every case the records, and so the session's status, are unchanged; a
    success has made exactly one [sendMessage] call on the session's
    socket. *)
Theorem C7_pairing_requires_connected st code p ok sd :
  getByPairingCode code st = Some sd →
  let res := post_pair_with_code (field_string code) p ok st in
  (store res.1 = store st ∧ activeSessions res.1 = activeSessions st
   ∧ pairingCodes res.1 = pairingCodes st)
  ∧ (∀ b, res.2 = json 200 b →
       status sd = connected
       ∧ ∃ phone s, p = field_string phone ∧ socket sd = Some s
           ∧ sendCalls res.1
             = sendCalls st ++ [mkOutbound s (Js.digits_only phone +:+ "@s.whatsapp.net")
                                           (id sd) code])
  ∧ (status sd ≠ connected → res.1 = st ∧ sendCalls res.1 = sendCalls st)
  ∧ (status sd ≠ connected →
       field_truthy p = false ∨ (∃ phone, p = field_string phone) →
       ∃ msg, res.2 = json 400 (body_error msg))
  ∧ (∀ phone, status sd ≠ connected →
       code ≠ "" → p = field_string phone → phone ≠ "" →
       Js.startsWith "254" (Js.digits_only phone) = true →
       String.length (Js.digits_only phone) = 12 →
       res.2 = json 400 (body_error "Session not connected yet")).
Proof.
  intros Hsd. cbv zeta. split.
  { destruct (post_pair_with_code_state (field_string code) p ok st) as [->|[o ->]]; done. }
  unfold post_pair_with_code. cbv zeta. split_and!.
  - intros b. destruct (bool_decide (status sd = connected)) eqn:Hst.
    + apply bool_decide_eq_true in Hst.
      destruct p as [phone| |]; rewrite ?Hsd, ?Hst; simpl;
        repeat case_match; simpl; intros [= <-]; eauto 10.
    + destruct p as [phone| |]; rewrite ?Hsd, ?Hst; simpl;
        repeat case_match; simpl; intros [= <-].
  - intros Hst. destruct p as [phone| |];
      rewrite ?Hsd, ?(bool_decide_eq_false_2 _ Hst); simpl;
      repeat case_match; simpl; eauto.
  - intros Hst [Hp | [phone ->]].
    + rewrite Hp, orb_true_r. eauto.
    + rewrite Hsd, (bool_decide_eq_false_2 _ Hst). simpl.
      repeat case_match; simpl; eauto.
  - intros phone Hst Hcode -> Hphone Hpre Hlen.
    rewrite Hsd, (bool_decide_eq_false_2 _ Hst), Hpre, Hlen. simpl.
    by rewrite (bool_decide_eq_false_2 _ Hcode), (bool_decide_eq_false_2 _ Hphone).
Qed.

Lemma C7_pairing_requires_connected_witness :
  let st := run initial (startup ++ [ConnectionUpdate 0 challenge]) in
  let res := post_pair_with_code (field_string "ABCDEFGH")
                                 (field_string "+254723278526") true st in
  (status <$> getByPairingCode "ABCDEFGH" st = Some qr_ready)
  ∧ res.2 = json 400 (body_error "Session not connected yet")
  ∧ sendCalls res.1 = sendCalls st.
Proof.
  split; [reflexivity|].
  pose proof (C7_pairing_requires_connected
                (run initial (startup ++ [ConnectionUpdate 0 challenge]))
                "ABCDEFGH" (field_string "+254723278526") true _ eq_refl)
    as (_ & _ & H3 & _ & H5).
  split.
  - apply (H5 "+254723278526"); [discriminate | discriminate | reflexivity
                                 | discriminate | reflexivity..].
  - apply H3. discriminate.
Defined.

(** ** The QR image route (C10) *)

(** C10: when the requested session id is not a key of the registry, the
    route falls back to the record stored under [default]: it renders that
    record's challenge when it has one, and answers 404 exactly when there is
    no [default] record or it stores no challenge. *)
Theorem C10_qr_falls_back_to_default st k ok :
  JsMap.get k (activeSessions st) = None →
  (∀ sd q, get "default" st = Some sd → qr sd = Some q → q ≠ "" →
     get_qr k true st = png q)
  ∧ get_qr k ok st
    = match get "default" st with
      | Some sd =>
          if Js.truthy (qr sd) then
            if ok then png (default "" (qr sd)) else json 500 body_thrown
          else json 404 (body_error "QR code not available")
      | None => json 404 (body_error "QR code not available")
      end
  ∧ ((∃ b, get_qr k ok st = json 404 b)
     ↔ ¬ ∃ sd, get "default" st = Some sd ∧ Js.truthy (qr sd) = true).
Proof.
  intros Hk.
  assert (get k st = None) as Hg by (unfold get; by rewrite Hk).
  unfold get_qr. rewrite Hg.
  split; [|split].
  - intros sd q -> Hq Hne. rewrite Hq. simpl. by rewrite bool_decide_eq_false_2.
  - done.
  - destruct (get "default" st) as [sd|]; [|split; [intros _ (?&?&?); done | eauto]].
    destruct (Js.truthy (qr sd)) eqn:Hq.
    + split; [intros [b Hb]; by destruct ok | intros []; eauto].
    + split; [intros _ (sd' & [= <-] & ?); congruence | eauto].
Qed.

Lemma C10_qr_falls_back_to_default_witness :
  let st := run initial (startup ++ [ConnectionUpdate 0 challenge]) in
  JsMap.get "IAN-TECH-5" (activeSessions st) = None
  ∧ get_qr "IAN-TECH-5" true st = png "2@challenge".
Proof.
  split; [reflexivity|].
  refine (proj1 (C10_qr_falls_back_to_default
                   (run initial (startup ++ [ConnectionUpdate 0 challenge]))
                   "IAN-TECH-5" true eq_refl) _ "2@challenge" eq_refl eq_refl _).
  discriminate.
Defined.

(** ** The snapshot for a new observer (C8) *)

Lemma length_deref (l : list SessionData) (rs : list nat) :
  Forall (λ r, r < length l) rs → length (omap (λ r, l !! r) rs) = length rs.
Proof.
  induction 1 as [|r rs Hr _ IH]; [done|].
  destruct (lookup_lt_is_Some_2 l r Hr) as [sd Hsd].
  cbn. rewrite Hsd. cbn. by f_equal.
Qed.

Lemma filter_observer_fresh (o : nat) (l : list (nat * Msg)) :
  Forall (λ d, d.1 < o) l → filter (λ d, d.1 = o) l = [].
Proof.
  induction 1 as [|d l Hd _ IH]; [done|].
  rewrite filter_cons_False; [done | lia].
Qed.

(** C8: a subscribing observer is sent, inside the connection callback, an
    [init] snapshot with one summary per entry of [activeSessions]; whatever
    events follow, that snapshot is the first message delivered to the
    observer. *)
Theorem C8_init_snapshot_first st es :
  reachable st →
  let o := nextObserver st in
  ∃ snap rest,
    (step st IoConnection).1 = io_connection st
    ∧ delivered (io_connection st) = delivered st ++ [(o, msg_init snap)]
    ∧ length snap = JsMap.size (activeSessions st)
    ∧ filter (λ d, d.1 = o) (delivered (run (io_connection st) es))
      = (o, msg_init snap) :: rest.
Proof.
  intros Hreach. cbv zeta.
  destruct (reachable_RegInv st Hreach) as [Hrefs _ _ _].
  destruct (reachable_ObsInv st Hreach) as [Hdel _].
  destruct (ext_delivered _ _ (extends_run (io_connection st) es)) as [l Hl].
  exists (summary <$> sessions_of st), (filter (λ d, d.1 = nextObserver st) l).
  split; [done|]. split; [done|]. split.
  - rewrite length_fmap. unfold sessions_of. rewrite length_deref by done.
    apply JsMapFacts.size_values.
  - rewrite Hl. simpl. rewrite !filter_app, filter_observer_fresh by done.
    simpl. by rewrite filter_cons_True.
Qed.

Lemma C8_init_snapshot_first_witness :
  let st := run initial startup in
  let later := [ConnectionUpdate 0 challenge; Settle 0 (resolved_qrImage "data:image/png")] in
  ∃ snap rest,
    (step st IoConnection).1 = io_connection st
    ∧ delivered (io_connection st) = delivered st ++ [(0, msg_init snap)]
    ∧ length snap = 1
    ∧ filter (λ d, d.1 = 0) (delivered (run (io_connection st) later))
      = (0, msg_init snap) :: rest.
Proof.
  apply (C8_init_snapshot_first (run initial startup)
           [ConnectionUpdate 0 challenge; Settle 0 (resolved_qrImage "data:image/png")]).
  exists startup. reflexivity.
Defined.

(** ** The single-session bot *)

Module BotFacts.
Import Bot.

(** The guard of [connectToWhatsApp]: a call while a connection attempt is
    in progress does nothing. *)
Lemma connectToWhatsApp_guard st :
  isConnecting st = true → connectToWhatsApp st = st.
Proof. unfold connectToWhatsApp. by intros ->. Qed.

(** A close event resets [isConnecting] and, unless logged out, adds one
    timer: the guard sits in front of the connection attempt, not in front
    of the timer. *)
Lemma close_adds_timer st u :
  Js.truthy (u_qr u) = false →
  connection u = Some conn_close →
  statusCode u ≠ Some DisconnectReason_loggedOut →
  timers (on_update u st) = timers st ++ [5000%N]
  ∧ isConnecting (on_update u st) = false
  ∧ status (on_update u st) = disconnected.
Proof.
  intros Hq Hc Hcode. unfold on_update. rewrite Hq, Hc. simpl.
  by rewrite (bool_decide_eq_false_2 _ Hcode).
Qed.

Lemma close_loggedOut st u :
  Js.truthy (u_qr u) = false →
  connection u = Some conn_close →
  statusCode u = Some DisconnectReason_loggedOut →
  timers (on_update u st) = timers st
  ∧ status (on_update u st) = disconnected
  ∧ emitted (on_update u st) = emitted st ++ [msg_status disconnected; msg_logout].
Proof.
  intros Hq Hc Hcode. unfold on_update. rewrite Hq, Hc, Hcode. simpl.
  by rewrite <- app_assoc.
Qed.

(** A challenge event sets [qr_ready] whatever the status was. *)
Lemma challenge_sets_qr_ready st u :
  Js.truthy (u_qr u) = true → connection u = None →
  status (on_update u st) = qr_ready ∧ qr (on_update u st) = default "" (u_qr u).
Proof. intros Hq Hc. unfold on_update. by rewrite Hq, Hc. Qed.

Example two_closes_two_timers :
  timers (on_update closed_restart (on_update closed_restart initial))
  = [5000%N; 5000%N].
Proof. reflexivity. Qed.

End BotFacts.

(** * Further properties of the server *)

(** ** The generator, character by character *)

Lemma string_get_lookup (s : string) (d : nat) :
  String.get d s = String.list_ascii_of_string s !! d.
Proof.
  revert d. induction s as [|c s IH]; intros [|d]; simpl; auto.
Qed.

Lemma list_ascii_app (s1 s2 : string) :
  String.list_ascii_of_string (s1 +:+ s2)
  = String.list_ascii_of_string s1 ++ String.list_ascii_of_string s2.
Proof. induction s1 as [|c s1 IH]; simpl; [done | by rewrite IH]. Qed.

Lemma chars_length : length (String.list_ascii_of_string chars) = 36.
Proof. reflexivity. Qed.

Lemma charAt_chars d : d < 36 → Js.charAt chars d = String (alphabet_at d) "".
Proof.
  intros Hd. unfold Js.charAt, alphabet_at. rewrite string_get_lookup.
  destruct (lookup_lt_is_Some_2 (String.list_ascii_of_string chars) d) as [c ->];
    [by rewrite chars_length | done].
Qed.

Lemma alphabet_at_inj d d' : d < 36 → d' < 36 → alphabet_at d = alphabet_at d' → d = d'.
Proof.
  intros Hd Hd'. unfold alphabet_at.
  destruct (lookup_lt_is_Some_2 (String.list_ascii_of_string chars) d) as [c Hc];
    [by rewrite chars_length|].
  destruct (lookup_lt_is_Some_2 (String.list_ascii_of_string chars) d') as [c' Hc'];
    [by rewrite chars_length|].
  rewrite Hc, Hc'. simpl. intros <-.
  assert (NoDup (String.list_ascii_of_string chars)) as Hnd
    by (apply (bool_decide_unpack _); vm_compute; exact I).
  by eapply NoDup_lookup.
Qed.

Lemma alphabet_at_elem d : d < 36 → alphabet_at d ∈ String.list_ascii_of_string chars.
Proof.
  intros Hd. unfold alphabet_at.
  destruct (lookup_lt_is_Some_2 (String.list_ascii_of_string chars) d) as [c Hc];
    [by rewrite chars_length|].
  rewrite Hc. simpl. by eapply list_elem_of_lookup_2.
Qed.

(** The loop appends one character of the alphabet per iteration. *)
Lemma generatePairingCode_loop_chars rnd i n code :
  (∀ j, i ≤ j < i + n → rnd j < 36) →
  String.list_ascii_of_string (generatePairingCode_loop rnd i n code)
  = String.list_ascii_of_string code ++ ((λ j, alphabet_at (rnd j)) <$> seq i n).
Proof.
  revert i code. induction n as [|n IH]; intros i code Hrnd; simpl.
  - by rewrite app_nil_r.
  - rewrite IH by (intros j Hj; apply Hrnd; lia).
    rewrite list_ascii_app, charAt_chars by (apply Hrnd; lia).
    simpl. by rewrite <- app_assoc.
Qed.

Lemma generatePairingCode_chars rnd :
  (∀ j, j < 8 → rnd j < 36) →
  String.list_ascii_of_string (generatePairingCode rnd)
  = (λ j, alphabet_at (rnd j)) <$> seq 0 8.
Proof.
  intros Hrnd. unfold generatePairingCode.
  rewrite generatePairingCode_loop_chars; [done|]. intros j Hj. apply Hrnd. lia.
Qed.

(** X1: with the eight draws in range (which [Math.floor (Math.random () *
    36)] always is), the pairing code has exactly eight characters and each
    is a character of the alphabet [A-Z0-9]. *)
Theorem X1_generatePairingCode_alphabet rnd :
  (∀ j, j < 8 → rnd j < 36) →
  String.length (generatePairingCode rnd) = 8
  ∧ Forall (λ c, c ∈ String.list_ascii_of_string chars)
           (String.list_ascii_of_string (generatePairingCode rnd)).
Proof.
  intros Hrnd. split.
  - unfold generatePairingCode.
    cut (∀ n i code, (∀ j, i ≤ j < i + n → rnd j < 36) →
           String.length (generatePairingCode_loop rnd i n code)
           = String.length code + n).
    { intros H. rewrite H; [done|]. intros j Hj. apply Hrnd. lia. }
    induction n as [|n IH]; intros i code Hr; simpl; [lia|].
    rewrite IH by (intros j Hj; apply Hr; lia).
    rewrite string_length_app, charAt_chars_length by (apply Hr; lia). lia.
  - rewrite generatePairingCode_chars by done.
    apply Forall_fmap, Forall_forall. intros j Hj%elem_of_seq. simpl.
    apply alphabet_at_elem, Hrnd. lia.
Qed.

Lemma X1_generatePairingCode_alphabet_witness :
  String.length (generatePairingCode draws_AH) = 8
  ∧ Forall (λ c, c ∈ String.list_ascii_of_string chars)
           (String.list_ascii_of_string (generatePairingCode draws_AH)).
Proof.
  apply (X1_generatePairingCode_alphabet draws_AH).
  intros j Hj. unfold draws_AH. lia.
Defined.

(** X2: the code determines the draws: two runs of the generator with draws
    in range return the same code only if all eight draws agree.  So equal
    codes come from equal draws alone, and there are 36^8 distinct codes. *)
Theorem X2_generatePairingCode_inj rnd rnd' :
  (∀ j, j < 8 → rnd j < 36) →
  (∀ j, j < 8 → rnd' j < 36) →
  generatePairingCode rnd = generatePairingCode rnd' →
  ∀ j, j < 8 → rnd j = rnd' j.
Proof.
  intros Hrnd Hrnd' Heq j Hj.
  apply (f_equal String.list_ascii_of_string) in Heq.
  rewrite !generatePairingCode_chars in Heq by done.
  apply (f_equal (λ l, l !! j)) in Heq.
  rewrite !list_lookup_fmap, !lookup_seq_lt in Heq by done. simpl in Heq.
  injection Heq as Heq. apply alphabet_at_inj in Heq; auto.
Qed.

Lemma X2_generatePairingCode_inj_witness :
  generatePairingCode draws_AH = generatePairingCode (λ i, i `mod` 36)
  ∧ draws_AH 7 = 7 `mod` 36.
Proof.
  split; [reflexivity|].
  apply (X2_generatePairingCode_inj draws_AH (λ i, i `mod` 36)).
  - intros j Hj. unfold draws_AH. lia.
  - intros j Hj. apply Nat.mod_upper_bound. lia.
  - reflexivity.
  - lia.
Defined.

(** ** The life cycle of records *)

Lemma rec_inv_set_status v sd :
  v ≠ initializing → live sd → rec_inv sd → rec_inv (set_status v sd).
Proof.
  intros Hv [s Hs] (Hid & _ & _ & Himg). split_and!; simpl; try done.
  by rewrite Hs.
Qed.

Lemma rec_inv_challenge q sd :
  Js.truthy q = true → live sd → rec_inv sd →
  rec_inv (set_status qr_ready (set_qr q sd)).
Proof.
  intros Hq [s Hs] (Hid & _ & _ & _). split_and!; simpl; try done.
  by rewrite Hs.
Qed.

Lemma rec_inv_set_user u sd :
  status sd ≠ initializing → rec_inv sd → rec_inv (set_user u sd).
Proof. intros Hst (Hid & Hsock & _ & Himg). split_and!; simpl; done. Qed.

Lemma rec_inv_set_qrImage i sd :
  challenged sd → rec_inv sd → rec_inv (set_qrImage i sd).
Proof.
  intros [Hq Hst] (Hid & Hsock & _ & _). split_and!; simpl; done.
Qed.

Lemma rec_inv_set_socket s sd : rec_inv sd → rec_inv (set_socket (Some s) sd).
Proof. intros (Hid & _ & Hinit & Himg). split_and!; simpl; done. Qed.

Lemma grows_refl st : grows st st.
Proof. intros r sd Hsd. eauto. Qed.

Lemma task_ok_grows st st' t : grows st st' → task_ok st t → task_ok st' t.
Proof.
  intros Hg. destruct t as [sid|r|r s u|r]; simpl; [done|..].
  - intros [sd Hsd]. destruct (Hg r sd Hsd) as (sd' & Hsd' & _). by eexists.
  - intros (sd & Hsd & Hl & Hc). destruct (Hg r sd Hsd) as (sd' & Hsd' & Hl' & Hc').
    exists sd'. auto.
  - intros (sd & Hsd & Hl). destruct (Hg r sd Hsd) as (sd' & Hsd' & Hl' & _).
    exists sd'. auto.
Qed.

Lemma live_at_grows r st st' : grows st st' → live_at r st → live_at r st'.
Proof.
  intros Hg (sd & Hsd & Hl). destruct (Hg r sd Hsd) as (sd' & Hsd' & Hl' & _).
  exists sd'. auto.
Qed.

(** The invariant follows a change of the store that lets records grow. *)
Lemma LifeInv_grows st st' :
  LifeInv st → grows st st' → Forall rec_inv (store st') →
  sockets st' = sockets st → tasks st' = tasks st → LifeInv st'.
Proof.
  intros [Hrec Hsock Htask] Hg Hrec' Hs Ht. split; [done| |].
  - rewrite Hs. eapply Forall_impl; [exact Hsock|]. intros sk Hsk.
    by apply (live_at_grows _ st).
  - rewrite Ht. eapply Forall_impl; [exact Htask|]. intros t. by apply task_ok_grows.
Qed.

Lemma grows_mutate st r f :
  (∀ sd, store st !! r = Some sd →
     (live sd → live (f sd)) ∧ (challenged sd → challenged (f sd))) →
  grows st (mutate r f st).
Proof.
  intros Hf r' sd Hsd. simpl. rewrite list_lookup_alter.
  destruct (decide (r = r')) as [->|]; [|eauto].
  rewrite Hsd. simpl. eexists. split; [done|]. by apply Hf.
Qed.

Lemma LifeInv_mutate st r f :
  LifeInv st →
  (∀ sd, store st !! r = Some sd → rec_inv sd →
     rec_inv (f sd) ∧ (live sd → live (f sd)) ∧ (challenged sd → challenged (f sd))) →
  LifeInv (mutate r f st).
Proof.
  intros Hinv Hf. apply (LifeInv_grows st); [done| | |done..].
  - apply grows_mutate. intros sd Hsd.
    destruct (Hf sd Hsd) as (_ & ? & ?); [|done].
    destruct Hinv as [Hrec _ _]. by eapply Forall_lookup_1 in Hrec.
  - simpl. destruct Hinv as [Hrec _ _]. apply Forall_alter; [done|].
    intros sd Hsd Hsdinv. by apply Hf.
Qed.

Lemma LifeInv_snoc_task st t :
  LifeInv st → task_ok st t → LifeInv (with_tasks (tasks st ++ [t]) st).
Proof.
  intros [Hrec Hsock Htask] Ht. split; [done..|]. simpl.
  apply Forall_app. split; [exact Htask | by constructor].
Qed.

Lemma LifeInv_delete_task st i :
  LifeInv st → LifeInv (with_tasks (delete i (tasks st)) st).
Proof.
  intros [Hrec Hsock Htask]. split; [done..|]. simpl.
  by apply Forall_delete.
Qed.

Section life_inv.
Context (st : State) (Hinv : LifeInv st).

Lemma LifeInv_with_timers v : LifeInv (with_timers v st).
Proof. by destruct Hinv. Qed.
Lemma LifeInv_with_observers v n : LifeInv (with_observers v n st).
Proof. by destruct Hinv. Qed.
Lemma LifeInv_with_sendCalls v : LifeInv (with_sendCalls v st).
Proof. by destruct Hinv. Qed.
Lemma LifeInv_io_emit m : LifeInv (io_emit m st).
Proof. by destruct Hinv. Qed.
Lemma LifeInv_socket_emit o m : LifeInv (socket_emit o m st).
Proof. by destruct Hinv. Qed.
End life_inv.

Create HintDb life discriminated.

#[local] Hint Resolve LifeInv_with_timers LifeInv_with_observers
  LifeInv_with_sendCalls LifeInv_io_emit LifeInv_socket_emit
  LifeInv_snoc_task LifeInv_delete_task : life.

Lemma LifeInv_open_emit st r : LifeInv st → LifeInv (on_update_open_emit r st).
Proof. intros Hinv. unfold on_update_open_emit. case_match; eauto with life. Qed.

Lemma LifeInv_on_update_conn st r s u :
  LifeInv st → live_at r st → LifeInv (on_update_conn r s u st).
Proof.
  intros Hinv (sd & Hsd & Hl). unfold on_update_conn.
  destruct (connection u) as [[| |]|]; [| |done..]; cbv zeta.
  - (* open *)
    assert (LifeInv (mutate r (set_status connected) st)) as H1.
    { apply LifeInv_mutate; [done|]. intros sd' Hsd' Hinv'.
      assert (sd' = sd) as -> by congruence.
      split; [by apply rec_inv_set_status|]. split; [done|].
      intros [Hq _]. by split. }
    assert (store (mutate r (set_status connected) st) !! r
            = Some (set_status connected sd)) as Hsd1.
    { simpl. by rewrite list_lookup_alter_eq, Hsd. }
    destruct (sockets (mutate r (set_status connected) st) !! s ≫= sock_user)
      as [w|]; [|by apply LifeInv_open_emit].
    match goal with
    | |- context [mutate r (set_user ?v) ?st1] =>
        assert (LifeInv (mutate r (set_user v) st1)) as H2
    end.
    { apply LifeInv_mutate; [done|]. intros sd' Hsd' Hinv'.
      assert (sd' = set_status connected sd) as -> by congruence.
      split; [by apply rec_inv_set_user|]. done. }
    case_match; [|by apply LifeInv_open_emit].
    apply LifeInv_snoc_task; [done|]. simpl.
    rewrite !list_lookup_alter_eq, Hsd. simpl. eauto.
  - (* close *)
    assert (LifeInv (mutate r (set_status disconnected) st)) as H1.
    { apply LifeInv_mutate; [done|]. intros sd' Hsd' Hinv'.
      assert (sd' = sd) as -> by congruence.
      split; [by apply rec_inv_set_status|]. split; [done|].
      intros [Hq _]. by split. }
    repeat case_match; eauto with life.
Qed.

Lemma LifeInv_on_update st r s u :
  LifeInv st → live_at r st → LifeInv (on_update r s u st).
Proof.
  intros Hinv Hlive. unfold on_update.
  destruct (Js.truthy (u_qr u)) eqn:Hq; [|by apply LifeInv_on_update_conn].
  destruct Hlive as (sd & Hsd & Hl). cbv zeta.
  apply LifeInv_snoc_task.
  - apply LifeInv_mutate; [done|]. intros sd' Hsd' Hinv'.
    assert (sd' = sd) as -> by congruence.
    split; [by apply rec_inv_challenge|]. split; [done|]. by intros _; split.
  - simpl. rewrite list_lookup_alter_eq, Hsd. simpl.
    eexists. split; [done|]. by split.
Qed.

Lemma LifeInv_on_update_qr_resume st r s u img :
  LifeInv st →
  (∃ sd, store st !! r = Some sd ∧ live sd ∧ challenged sd) →
  LifeInv (on_update_qr_resume r s u img st).
Proof.
  intros Hinv (sd & Hsd & Hl & Hc). unfold on_update_qr_resume.
  destruct img as [i|]; [|apply LifeInv_on_update_conn; [done | by exists sd]].
  assert (LifeInv (mutate r (set_qrImage (Some i)) st)) as H1.
  { apply LifeInv_mutate; [done|]. intros sd' Hsd' Hinv'.
    assert (sd' = sd) as -> by congruence.
    split; [by apply rec_inv_set_qrImage|]. done. }
  assert (live_at r (mutate r (set_qrImage (Some i)) st)) as Hl1.
  { eexists. simpl. rewrite list_lookup_alter_eq, Hsd. by split. }
  apply LifeInv_on_update_conn; case_match; eauto with life.
Qed.

Lemma LifeInv_register st sid now created rnd :
  LifeInv st → LifeInv (createWhatsAppConnection_register sid now created rnd st).
Proof.
  intros Hinv. unfold createWhatsAppConnection_register. cbv zeta.
  match goal with
  | |- LifeInv (with_tasks _ ?st2) =>
      assert (LifeInv st2) as H2
  end.
  { apply (LifeInv_grows st); [done| | |done..].
    - intros r sd Hsd. exists sd. split; [|done]. simpl.
      rewrite lookup_app_l; [done|]. by eapply lookup_lt_Some.
    - simpl. apply Forall_app. split; [by destruct Hinv|].
      repeat constructor; simpl; try done.
      apply or_else_truthy. discriminate. }
  apply (LifeInv_snoc_task _ (AwaitVersion (length (store st)))); [done|].
  simpl. rewrite list_lookup_middle by done. by eexists.
Qed.

Lemma LifeInv_socket st r :
  LifeInv st → is_Some (store st !! r) →
  LifeInv (createWhatsAppConnection_socket r st).
Proof.
  intros Hinv [sd Hsd]. unfold createWhatsAppConnection_socket. cbv zeta.
  assert (grows st (mutate r (set_socket (Some (length (sockets st)))) st)) as Hg.
  { apply grows_mutate. intros sd' _. split; [by eexists | done]. }
  destruct Hinv as [Hrec Hsock Htask]. split.
  - simpl. apply Forall_alter; [done|]. intros sd' _. apply rec_inv_set_socket.
  - simpl. apply Forall_app. split.
    + eapply Forall_impl; [exact Hsock|]. intros sk Hsk.
      exact (live_at_grows _ _ _ Hg Hsk).
    + repeat constructor. simpl. rewrite list_lookup_alter_eq, Hsd. simpl.
      eexists. split; [done | by eexists].
  - simpl. eapply Forall_impl; [exact Htask|]. intros t Ht.
    exact (task_ok_grows _ _ t Hg Ht).
Qed.

Lemma LifeInv_settle st i o : LifeInv st → LifeInv (settle i o st).
Proof.
  intros Hinv. unfold settle.
  destruct (tasks st !! i) as [t|] eqn:Ht; [|done].
  assert (task_ok st t) as Hok.
  { destruct Hinv as [_ _ Htask]. by eapply Forall_lookup_1 in Htask. }
  pose proof (LifeInv_delete_task st i Hinv) as Hdel.
  destruct t, o; try done; simpl in Hok.
  - by apply LifeInv_register.
  - by apply LifeInv_socket.
  - by apply LifeInv_on_update_qr_resume.
  - by apply LifeInv_on_update_qr_resume.
  - by apply LifeInv_open_emit.
  - by apply LifeInv_open_emit.
Qed.

Lemma LifeInv_initial : LifeInv initial.
Proof. split; constructor. Qed.

Lemma LifeInv_step st e : LifeInv st → LifeInv (step st e).1.
Proof.
  intros Hinv. destruct e; simpl.
  - apply LifeInv_snoc_task; done.
  - by apply LifeInv_settle.
  - destruct Hinv as [Hrec Hsock Htask]. split; [done| |done]. simpl.
    apply Forall_alter; [done|]. by intros sk _.
  - unfold connection_update. destruct (sockets st !! s) as [sk|] eqn:Hs; [|done].
    apply LifeInv_on_update; [done|].
    destruct Hinv as [_ Hsock _]. by eapply Forall_lookup_1 in Hsock.
  - unfold timer_fires. repeat case_match; try done.
    + apply (LifeInv_snoc_task (with_timers _ st)); [|done]. by apply LifeInv_with_timers.
    + by apply LifeInv_with_timers.
  - done.
  - apply LifeInv_snoc_task; done.
  - destruct (post_pair_with_code_state body_pairingCode body_phoneNumber send_ok st)
      as [->|[o ->]]; [done | by apply LifeInv_with_sendCalls].
  - done.
  - done.
  - unfold io_connection. cbv zeta. apply LifeInv_socket_emit.
    by apply LifeInv_with_observers.
  - case_match; [|done]. apply LifeInv_snoc_task; done.
  - unfold io_get_qr. repeat case_match; try done. by apply LifeInv_socket_emit.
  - by apply LifeInv_with_observers.
Qed.

Lemma reachable_LifeInv st : reachable st → LifeInv st.
Proof. apply reachable_ind; [apply LifeInv_initial | intros; by apply LifeInv_step]. Qed.

Lemma getByPairingCode_store st code sd :
  getByPairingCode code st = Some sd → ∃ r, store st !! r = Some sd.
Proof.
  unfold getByPairingCode. destruct (pairingCodes st !! code) as [r|]; [|done].
  simpl. eauto.
Qed.

(** In the record, the image may lag behind the challenge: a second
    challenge arrives while the first is being rendered, and the record then
    holds the second challenge with the image of the first. *)
Example qr_image_may_lag :
  let st := run initial (startup ++ [ConnectionUpdate 0 (mkUpdate None None (Some "2@AAA"));
                                     ConnectionUpdate 0 (mkUpdate None None (Some "2@BBB"));
                                     Settle 0 (resolved_qrImage "image of 2@AAA")]) in
  (λ sd, (qr sd, qrImage sd)) <$> store st !! 0
  = Some (Some "2@BBB", Some "image of 2@AAA").
Proof. reflexivity. Qed.

(** X3: in every reachable state, every session record has a non-empty id;
    a record that has no socket yet is still [initializing]; an
    [initializing] record has no challenge, no user and no QR image; and a
    record with a rendered QR image also stores a challenge (the latest one
    received, which need not be the one the image was rendered from). *)
Theorem X3_record_lifecycle st r sd :
  reachable st →
  store st !! r = Some sd →
  id sd ≠ ""
  ∧ (socket sd = None → status sd = initializing)
  ∧ (status sd = initializing → qr sd = None ∧ user sd = None ∧ qrImage sd = None)
  ∧ (is_Some (qrImage sd) → Js.truthy (qr sd) = true).
Proof.
  intros [Hrec _ _]%reachable_LifeInv Hsd.
  by eapply Forall_lookup_1 in Hrec.
Qed.

Lemma X3_record_lifecycle_witness :
  let st := run initial (startup ++ [ConnectionUpdate 0 challenge;
                                     Settle 0 (resolved_qrImage "data:image/png")]) in
  ∃ sd, store st !! 0 = Some sd
    ∧ is_Some (qrImage sd)
    ∧ id sd ≠ ""
    ∧ (socket sd = None → status sd = initializing)
    ∧ (status sd = initializing → qr sd = None ∧ user sd = None ∧ qrImage sd = None)
    ∧ (is_Some (qrImage sd) → Js.truthy (qr sd) = true).
Proof.
  eexists. split; [reflexivity|]. split; [by eexists|].
  apply (X3_record_lifecycle
           (run initial (startup ++ [ConnectionUpdate 0 challenge;
                                     Settle 0 (resolved_qrImage "data:image/png")])) 0).
  - eexists. reflexivity.
  - reflexivity.
Defined.

(** X4: in every reachable state a [connected] session has its socket, so a
    well-formed pairing request for it always calls [sendMessage] once, on
    that socket and with the jid made of the cleaned number; the answer is
    200 when the send resolves and 500 when it rejects (never the 500 of a
    missing socket). *)
Theorem X4_connected_session_is_paired st code phone ok sd :
  reachable st →
  getByPairingCode code st = Some sd →
  status sd = connected →
  code ≠ "" →
  phone ≠ "" →
  phone_ok (Js.digits_only phone) = true →
  ∃ s, socket sd = Some s
    ∧ sendCalls (post_pair_with_code (field_string code) (field_string phone) ok st).1
      = sendCalls st ++ [mkOutbound s (Js.digits_only phone +:+ "@s.whatsapp.net")
                                    (id sd) code]
    ∧ (post_pair_with_code (field_string code) (field_string phone) ok st).2
      = if ok then json 200 (body_paired (id sd)) else json 500 body_thrown.
Proof.
  intros [Hrec _ _]%reachable_LifeInv Hsd Hst Hcode Hp Hphone.
  destruct (getByPairingCode_store _ _ _ Hsd) as [r Hr].
  eapply Forall_lookup_1 in Hrec; [|exact Hr].
  destruct Hrec as (_ & Hsock & _).
  destruct (socket sd) as [s|] eqn:Hs; [|by rewrite Hsock in Hst].
  exists s. split; [done|].
  apply andb_true_iff in Hphone as [Hpre Hlen].
  unfold post_pair_with_code. cbv zeta.
  rewrite Hsd, Hpre, Hlen, Hs. simpl.
  rewrite (bool_decide_eq_false_2 _ Hcode), (bool_decide_eq_false_2 _ Hp),
    (bool_decide_eq_true_2 _ Hst). simpl.
  by destruct ok.
Qed.

Lemma X4_connected_session_is_paired_witness :
  let st := run initial (startup ++ [ConnectionUpdate 0 opened]) in
  ∃ s, (socket <$> getByPairingCode "ABCDEFGH" st) = Some (Some s)
    ∧ sendCalls (post_pair_with_code (field_string "ABCDEFGH")
                                     (field_string "+254 723 278526") true st).1
      = sendCalls st ++ [mkOutbound s "254723278526@s.whatsapp.net" "IAN-TECH-5" "ABCDEFGH"]
    ∧ (post_pair_with_code (field_string "ABCDEFGH")
                           (field_string "+254 723 278526") true st).2
      = json 200 (body_paired "IAN-TECH-5").
Proof.
  destruct (X4_connected_session_is_paired
              (run initial (startup ++ [ConnectionUpdate 0 opened]))
              "ABCDEFGH" "+254 723 278526" true
              (mkSession "IAN-TECH-5" "ABCDEFGH" None connected (Some 0)
                         "ian_tech_auth" 5 None None))
    as (s & Hs & Hcalls & Hresp);
    [by eexists | reflexivity | reflexivity | discriminate | discriminate | reflexivity |].
  exists s. split; [by rewrite <- Hs|]. split; [exact Hcalls | exact Hresp].
Defined.

(** X5: the validation order of the pairing route.  A missing or falsy code
    or phone number gives the first 400, whatever else holds; otherwise a
    phone number that is not a string makes [phoneNumber.replace] throw and
    the route answers 500; otherwise a phone number whose digits are not
    twelve digits starting with 254 gives the second 400; otherwise a code
    that is not a string, or is not registered, gives 404.  The route answers
    with 200, 400, 404 or 500 only, and a 400 or 404 leaves the state
    untouched. *)
Theorem X5_pair_with_code_validation st c p ok :
  let res := post_pair_with_code c p ok st in
  (field_truthy c = false ∨ field_truthy p = false →
     res = (st, json 400 (body_error "Pairing code and phone number are required")))
  ∧ (field_truthy c = true → field_truthy p = true →
     (∀ phone, p ≠ field_string phone) →
     res = (st, json 500 body_thrown))
  ∧ (∀ phone, field_truthy c = true → p = field_string phone → phone ≠ "" →
     phone_ok (Js.digits_only phone) = false →
     res = (st, json 400 (body_error "Phone number must be in format: +254723278526")))
  ∧ (∀ phone, field_truthy c = true → p = field_string phone → phone ≠ "" →
     phone_ok (Js.digits_only phone) = true →
     (∀ code, c = field_string code → getByPairingCode code st = None) →
     res = (st, json 404 (body_error "Invalid pairing code")))
  ∧ (∃ n b, res.2 = json n b ∧ (n = 200 ∨ n = 400 ∨ n = 404 ∨ n = 500)
            ∧ (n = 400 ∨ n = 404 → res.1 = st)).
Proof.
  cbv zeta. unfold post_pair_with_code, phone_ok. split_and!.
  - intros [-> | ->]; [done|]. by rewrite orb_true_r.
  - intros -> Hp Hns. rewrite Hp. simpl.
    destruct p as [phone| |]; [by destruct (Hns phone) | done..].
  - intros phone -> -> Hphone Hph. simpl.
    rewrite (bool_decide_eq_false_2 _ Hphone). simpl.
    by rewrite <- negb_andb, Hph.
  - intros phone -> -> Hphone Hph Hcode. simpl.
    rewrite (bool_decide_eq_false_2 _ Hphone). simpl.
    rewrite <- negb_andb, Hph. simpl.
    destruct c as [code| |]; [by rewrite (Hcode code eq_refl) | done..].
  - repeat case_match; simpl; eexists _, _; (split; [reflexivity|]);
      (split; [auto | intros [|]; done]).
Qed.

Lemma digits_only_digits s :
  Forall (λ c, Js.is_digit c = true) (String.list_ascii_of_string (Js.digits_only s)).
Proof.
  induction s as [|c s IH]; simpl; [constructor|].
  destruct (Js.is_digit c) eqn:Hc; [simpl; by constructor | done].
Qed.

Lemma digits_only_id s :
  Forall (λ c, Js.is_digit c = true) (String.list_ascii_of_string s) →
  Js.digits_only s = s.
Proof.
  induction s as [|c s IH]; simpl; [done|].
  intros [Hc Hs]%Forall_cons. rewrite Hc. by rewrite IH.
Qed.

(** X6: cleaning a phone number keeps exactly its decimal digits: the result
    consists of digits only and cleaning it again changes nothing.  The
    pairing route looks at the cleaned number only, so two phone numbers that
    differ in punctuation or spacing alone get the same answer and the same
    [sendMessage] call. *)
Theorem X6_phone_number_cleaning s :
  Forall (λ c, Js.is_digit c = true) (String.list_ascii_of_string (Js.digits_only s))
  ∧ Js.digits_only (Js.digits_only s) = Js.digits_only s
  ∧ (∀ st c ok s',
       s ≠ "" → s' ≠ "" → Js.digits_only s = Js.digits_only s' →
       post_pair_with_code c (field_string s) ok st
       = post_pair_with_code c (field_string s') ok st).
Proof.
  split; [apply digits_only_digits|]. split.
  - apply digits_only_id, digits_only_digits.
  - intros st c ok s' Hs Hs' Heq. unfold post_pair_with_code. simpl.
    rewrite (bool_decide_eq_false_2 _ Hs), (bool_decide_eq_false_2 _ Hs'), Heq.
    done.
Qed.

(** ** Lookups *)

Lemma getByPairingCode_is_Some st code :
  RegInv st → is_Some (getByPairingCode code st) ↔ is_Some (pairingCodes st !! code).
Proof.
  intros [_ _ Hcodes _]. unfold getByPairingCode. split.
  - destruct (pairingCodes st !! code); [by eexists | by intros [? ?]].
  - intros [r Hr]. rewrite Hr. simpl.
    destruct (Hcodes code r Hr) as (sd & -> & _). by eexists.
Qed.

(** X7: a pairing code never expires.  In a reachable state the lookup route
    answers 404 exactly for the codes that were never registered; once a code
    resolves it resolves after every further run of events (closes and
    logouts included), to a record carrying that code. *)
Theorem X7_pairing_code_never_expires st code :
  reachable st →
  (get_pairing_code code st = json 404 (body_error "Invalid pairing code")
   ↔ pairingCodes st !! code = None)
  ∧ (is_Some (pairingCodes st !! code) →
     ∀ es, ∃ sd, getByPairingCode code (run st es) = Some sd
               ∧ pairingCode sd = code
               ∧ get_pairing_code code (run st es)
                 = json 200 (body_pairing (id sd) (status sd) (user sd) (createdAt sd))).
Proof.
  intros Hreach. split.
  - pose proof (getByPairingCode_is_Some st code (reachable_RegInv st Hreach)) as Hiff.
    unfold get_pairing_code.
    destruct (getByPairingCode code st) as [sd|] eqn:Hsd.
    + split; [done|]. intros Hnone. destruct Hiff as [Hiff _].
      destruct Hiff as [r Hr]; [by eexists | congruence].
    + split; [|done]. intros _.
      destruct (pairingCodes st !! code) eqn:Hc; [|done].
      destruct Hiff as [_ Hiff]. destruct Hiff as [? ?]; [by eexists | done].
  - intros Hsome es.
    pose proof (reachable_RegInv _ (reachable_run st es Hreach)) as Hinv.
    apply (ext_codes _ _ (extends_run st es)) in Hsome.
    apply (getByPairingCode_is_Some _ _ Hinv) in Hsome as [sd Hsd].
    exists sd. split; [done|]. split.
    + destruct Hinv as [_ _ Hcodes _]. unfold getByPairingCode in Hsd.
      destruct (pairingCodes (run st es) !! code) as [r|] eqn:Hr; [|done].
      simpl in Hsd. destruct (Hcodes code r Hr) as (sd' & Hsd' & Hcode). congruence.
    + unfold get_pairing_code. by rewrite Hsd.
Qed.

Lemma X7_pairing_code_never_expires_witness :
  let st := run initial startup in
  is_Some (pairingCodes st !! "ABCDEFGH")
  ∧ (get_pairing_code "ZZZZZZZZ" st = json 404 (body_error "Invalid pairing code")
     ↔ pairingCodes st !! "ZZZZZZZZ" = None)
  ∧ ∃ sd, getByPairingCode "ABCDEFGH"
            (run st [ConnectionUpdate 0 opened; ConnectionUpdate 0 closed_loggedOut])
          = Some sd
        ∧ pairingCode sd = "ABCDEFGH"
        ∧ get_pairing_code "ABCDEFGH"
            (run st [ConnectionUpdate 0 opened; ConnectionUpdate 0 closed_loggedOut])
          = json 200 (body_pairing (id sd) (status sd) (user sd) (createdAt sd)).
Proof.
  split; [by eexists|]. split.
  - apply (X7_pairing_code_never_expires (run initial startup) "ZZZZZZZZ").
    eexists. reflexivity.
  - apply (X7_pairing_code_never_expires (run initial startup) "ABCDEFGH");
      [eexists; reflexivity | by eexists].
Defined.

Lemma deref_lookup (l : list SessionData) (rs : list nat) (i : nat) :
  Forall (λ r, r < length l) rs →
  omap (λ r, l !! r) rs !! i = rs !! i ≫= (λ r, l !! r).
Proof.
  intros Hrs. revert i. induction Hrs as [|r rs Hr _ IH]; intros i; [done|].
  destruct (lookup_lt_is_Some_2 l r Hr) as [sd Hsd].
  cbn. rewrite Hsd. destruct i as [|i]; cbn; [by rewrite Hsd | apply IH].
Qed.

Lemma JsMap_get_nth {V} (m : JsMap.t V) (i : nat) (k : string) :
  NoDup (JsMap.keys m) → JsMap.keys m !! i = Some k →
  JsMap.get k m = JsMap.values m !! i.
Proof.
  unfold JsMap.keys, JsMap.values. revert i.
  induction m as [|[k' v'] m IH]; intros i Hnd Hi; [done|].
  simpl in *. apply NoDup_cons in Hnd as [Hk' Hnd].
  destruct i as [|i]; simpl in *.
  - injection Hi as ->. by rewrite decide_True.
  - rewrite decide_False; [by apply IH|].
    intros ->. apply Hk'. by eapply list_elem_of_lookup_2.
Qed.

(** X8: in every reachable state the session list has one entry per key of
    the registry, in insertion order: its [i]-th entry is the summary (and
    creation time) of the record stored under the [i]-th key.  It lists the
    same summaries as the [init] snapshot a new observer is sent. *)
Theorem X8_sessions_list st :
  reachable st →
  ∃ l, get_sessions st = json 200 (body_sessions l)
    ∧ length l = JsMap.size (activeSessions st)
    ∧ l.*1 = summary <$> sessions_of st
    ∧ ∀ i k, JsMap.keys (activeSessions st) !! i = Some k →
        ∃ sd, get k st = Some sd ∧ l !! i = Some (summary sd, createdAt sd).
Proof.
  intros [Hrefs Hkeys _ _]%reachable_RegInv.
  eexists. split; [reflexivity|]. split_and!.
  - rewrite length_fmap. unfold sessions_of. rewrite length_deref by done.
    apply JsMapFacts.size_values.
  - rewrite <- list_fmap_compose. done.
  - intros i k Hk. unfold get. rewrite (JsMap_get_nth _ i k Hkeys Hk).
    rewrite list_lookup_fmap. unfold sessions_of. rewrite deref_lookup by done.
    assert (is_Some (JsMap.values (activeSessions st) !! i)) as [r Hr].
    { apply lookup_lt_is_Some. apply lookup_lt_Some in Hk.
      unfold JsMap.keys in Hk. unfold JsMap.values.
      rewrite length_fmap in Hk. by rewrite length_fmap. }
    rewrite Hr. simpl.
    eapply Forall_lookup_1 in Hrefs; [|exact Hr].
    destruct (lookup_lt_is_Some_2 _ _ Hrefs) as [sd Hsd].
    exists sd. by rewrite Hsd.
Qed.

Lemma X8_sessions_list_witness :
  let st := run initial (startup ++ [PostCreateSession (Some "A") 6;
                                     Settle 0 (resolved_authState 6 7 draws_98)]) in
  ∃ l, get_sessions st = json 200 (body_sessions l)
    ∧ length l = 2
    ∧ l.*1 = summary <$> sessions_of st
    ∧ ∀ i k, JsMap.keys (activeSessions st) !! i = Some k →
        ∃ sd, get k st = Some sd ∧ l !! i = Some (summary sd, createdAt sd).
Proof.
  apply (X8_sessions_list
           (run initial (startup ++ [PostCreateSession (Some "A") 6;
                                     Settle 0 (resolved_authState 6 7 draws_98)]))).
  eexists. reflexivity.
Defined.

(** ** Observers *)

Lemma filter_broadcast_absent (o : nat) (m : Msg) (obs : list nat) :
  o ∉ obs → filter (λ d : nat * Msg, d.1 = o) ((λ o', (o', m)) <$> obs) = [].
Proof.
  induction obs as [|o' obs IH]; [done|]. intros [Hne Hnin]%not_elem_of_cons.
  rewrite fmap_cons, filter_cons_False by (simpl; congruence). by apply IH.
Qed.

Lemma filter_broadcast_NoDup (o : nat) (m : Msg) (obs : list nat) :
  NoDup obs →
  filter (λ d : nat * Msg, d.1 = o) ((λ o', (o', m)) <$> obs)
  = if bool_decide (o ∈ obs) then [(o, m)] else [].
Proof.
  induction 1 as [|o' obs Hnin Hnd IH]; [done|]. rewrite fmap_cons.
  destruct (decide (o' = o)) as [->|Hne].
  - rewrite filter_cons_True by done. rewrite filter_broadcast_absent by done.
    rewrite bool_decide_eq_true_2; [done | apply list_elem_of_here].
  - rewrite filter_cons_False by done. rewrite IH.
    apply (f_equal (λ b : bool, if b then [(o, m)] else [])).
    apply bool_decide_ext. rewrite elem_of_cons. naive_solver.
Qed.

Section gone.
Context (o : nat) (l : list (nat * Msg)) (st : State) (Hgone : Gone o l st).

Lemma Gone_with_sockets v : Gone o l (with_sockets v st).
Proof. by destruct Hgone. Qed.
Lemma Gone_with_tasks v : Gone o l (with_tasks v st).
Proof. by destruct Hgone. Qed.
Lemma Gone_with_timers v : Gone o l (with_timers v st).
Proof. by destruct Hgone. Qed.
Lemma Gone_with_sendCalls v : Gone o l (with_sendCalls v st).
Proof. by destruct Hgone. Qed.
Lemma Gone_mutate r f : Gone o l (mutate r f st).
Proof. by destruct Hgone. Qed.
Lemma Gone_register sid now created rnd :
  Gone o l (createWhatsAppConnection_register sid now created rnd st).
Proof. by destruct Hgone. Qed.

Lemma Gone_io_emit m : Gone o l (io_emit m st).
Proof.
  destruct Hgone as [Hobs Hnext Hdel]. split; simpl; [done..|].
  by rewrite filter_app, filter_broadcast_absent, app_nil_r.
Qed.

Lemma Gone_socket_emit o' m :
  connected_observer o' st = true → Gone o l (socket_emit o' m st).
Proof.
  intros Hc%bool_decide_eq_true. destruct Hgone as [Hobs Hnext Hdel].
  split; simpl; [done..|].
  rewrite filter_app, filter_cons_False, app_nil_r; [done|].
  simpl. intros ->. done.
Qed.

Lemma Gone_io_connection : Gone o l (io_connection st).
Proof.
  destruct Hgone as [Hobs Hnext Hdel]. split; simpl.
  - rewrite elem_of_app, list_elem_of_singleton. intros [|]; [done | lia].
  - lia.
  - rewrite filter_app, filter_cons_False, app_nil_r; [done | simpl; lia].
Qed.

Lemma Gone_io_disconnect o' : Gone o l (io_disconnect o' st).
Proof.
  destruct Hgone as [Hobs Hnext Hdel]. split; simpl; [|done..].
  by intros [_ ?]%list_elem_of_filter.
Qed.

Lemma Gone_post_pair_with_code c p ok : Gone o l (post_pair_with_code c p ok st).1.
Proof.
  destruct (post_pair_with_code_state c p ok st) as [->|[x ->]];
    [done | apply Gone_with_sendCalls].
Qed.
End gone.

Create HintDb gone discriminated.

#[local] Hint Resolve Gone_with_sockets Gone_with_tasks Gone_with_timers
  Gone_with_sendCalls Gone_mutate Gone_register Gone_io_emit Gone_socket_emit
  Gone_io_connection Gone_io_disconnect Gone_post_pair_with_code : gone.

Lemma Gone_step o l st e : Gone o l st → Gone o l (step st e).1.
Proof.
  intros Hgone. destruct e; unfold_handlers;
    repeat case_match; simpl; eauto 12 with gone.
Qed.

Lemma Gone_run o l st es : Gone o l st → Gone o l (run st es).
Proof.
  intros Hgone. induction es as [|e es IH] using rev_ind; [done|].
  rewrite run_snoc. by apply Gone_step.
Qed.

(** X9: nothing is delivered to an observer after it disconnects: whatever
    events follow (publications, new observers, requests on its old socket),
    the messages delivered to it stay those delivered before. *)
Theorem X9_no_delivery_after_disconnect st o es :
  o < nextObserver st →
  filter (λ d, d.1 = o) (delivered (run (io_disconnect o st) es))
  = filter (λ d, d.1 = o) (delivered st).
Proof.
  intros Ho. apply (gone_delivered o). apply Gone_run. split; simpl; [|done..].
  intros [Hne _]%list_elem_of_filter. done.
Qed.

Lemma X9_no_delivery_after_disconnect_witness :
  let st := io_connection (run initial startup) in
  filter (λ d, d.1 = 0)
         (delivered (run (io_disconnect 0 st)
                         [ConnectionUpdate 0 opened; IoGetQr 0 None;
                          ConnectionUpdate 0 closed_restart]))
  = filter (λ d, d.1 = 0) (delivered st).
Proof.
  apply (X9_no_delivery_after_disconnect (io_connection (run initial startup)) 0).
  simpl. lia.
Defined.

Lemma observers_step st e :
  observers (step st e).1 = observers st
  ∨ observers (step st e).1 = observers st ++ [nextObserver st]
  ∨ ∃ o, observers (step st e).1 = filter (λ o', o' ≠ o) (observers st).
Proof.
  destruct e; try (left; unfold_handlers; repeat case_match; reflexivity).
  - left. simpl.
    by destruct (post_pair_with_code_state body_pairingCode body_phoneNumber send_ok st)
      as [->|[x ->]].
  - right. by left.
  - right. right. by eexists.
Qed.

Lemma reachable_observers_NoDup st : reachable st → NoDup (observers st).
Proof.
  intros Hreach.
  cut (ObsInv st ∧ NoDup (observers st)); [by intros [_ ?]|].
  revert st Hreach. apply reachable_ind.
  - split; [apply ObsInv_initial | constructor].
  - intros st e [Hobs Hnd]. split; [by apply ObsInv_step|].
    destruct (observers_step st e) as [->|[->|[o ->]]]; [done| |].
    + apply NoDup_app. split; [done|]. split; [|apply NoDup_singleton].
      intros o Ho ->%list_elem_of_singleton.
      destruct Hobs as [_ Hlt]. eapply Forall_forall in Hlt; [|exact Ho]. lia.
    + by apply NoDup_filter.
Qed.

(** X10: processing a close event, whatever its reason, publishes exactly
    one [session_update] with the session's id and the status [disconnected]
    (and neither user nor pairing code) to each observer connected at that
    moment, and nothing to any other observer. *)
Theorem X10_close_published_once st s sk sd u o :
  reachable st →
  sockets st !! s = Some sk →
  store st !! sock_session sk = Some sd →
  Js.truthy (u_qr u) = false →
  connection u = Some conn_close →
  filter (λ d, d.1 = o) (delivered (step st (ConnectionUpdate s u)).1)
  = filter (λ d, d.1 = o) (delivered st)
    ++ (if bool_decide (o ∈ observers st)
        then [(o, msg_session_update (id sd) disconnected None)] else []).
Proof.
  intros Hnd%reachable_observers_NoDup Hs Hsd Hq Hc. simpl.
  unfold connection_update, on_update, on_update_conn. rewrite Hs, Hq, Hc.
  cbv zeta. simpl store. rewrite list_lookup_alter_eq, Hsd. simpl.
  assert (∀ st1 v, delivered (with_timers v st1) = delivered st1) as Htim by done.
  destruct (negb (bool_decide (statusCode u = Some DisconnectReason_loggedOut)));
    rewrite ?Htim; simpl; by rewrite filter_app, filter_broadcast_NoDup.
Qed.

Lemma X10_close_published_once_witness :
  let st := run initial (startup ++ [IoConnection; IoConnection; IoDisconnect 0]) in
  filter (λ d, d.1 = 1) (delivered (step st (ConnectionUpdate 0 closed_loggedOut)).1)
  = filter (λ d, d.1 = 1) (delivered st)
    ++ (if bool_decide (1 ∈ observers st)
        then [(1, msg_session_update "IAN-TECH-5" disconnected None)] else []).
Proof.
  apply (X10_close_published_once
           (run initial (startup ++ [IoConnection; IoConnection; IoDisconnect 0]))
           0 (mkSock 0 None)
           (mkSession "IAN-TECH-5" "ABCDEFGH" None initializing (Some 0)
                      "ian_tech_auth" 5 None None)
           closed_loggedOut 1); [eexists; reflexivity | reflexivity..].
Defined.

(** ** Reconnection and the QR image of a registered session *)

Lemma delete_last {A} (l : list A) (x : A) : delete (length l) (l ++ [x]) = l.
Proof. induction l as [|y l IH]; simpl; [done | by rewrite IH]. Qed.

(** X11: when a reconnection timer fires and the credentials are loaded, the
    closed session is not resumed: a new record with the same id is stored
    under the key equal to that id, in status [initializing], with the newly
    drawn pairing code and the credentials folder [ian_tech_auth/<id>].  The
    closed record stays in the store as it was, and every other key
    ([default] included) keeps its binding. *)
Theorem X11_reconnect_creates_new_record st i r sd now created rnd :
  reachable st →
  timers st !! i = Some r →
  store st !! r = Some sd →
  let st1 := timer_fires i st in
  let st2 := settle (length (tasks st)) (resolved_authState now created rnd) st1 in
  timers st1 = delete i (timers st)
  ∧ tasks st1 = tasks st ++ [AwaitAuthState (Some (id sd))]
  ∧ get (id sd) st2
    = Some (mkSession (id sd) (generatePairingCode rnd) None initializing None
                      (AUTH_FOLDER +:+ "/" +:+ id sd) created None None)
  ∧ store st2 !! r = Some sd
  ∧ (∀ k, k ≠ id sd → JsMap.get k (activeSessions st2) = JsMap.get k (activeSessions st)).
Proof.
  intros [Hrec _ _]%reachable_LifeInv Hi Hsd. cbv zeta.
  eapply Forall_lookup_1 in Hrec; [|exact Hsd]. destruct Hrec as (Hid & _).
  assert (Js.truthy (Some (id sd)) = true) as Ht.
  { simpl. by rewrite bool_decide_eq_false_2. }
  assert (∀ d, Js.or_else (Some (id sd)) d = id sd) as Hor.
  { intros d. unfold Js.or_else. by rewrite Ht. }
  unfold timer_fires. rewrite Hi. cbv zeta. simpl store. rewrite Hsd.
  unfold createWhatsAppConnection. simpl.
  split; [done|]. split; [done|].
  unfold settle. simpl. rewrite list_lookup_middle by done. rewrite delete_last.
  unfold get. simpl. rewrite !Hor, JsMapFacts.get_set_eq. simpl.
  rewrite list_lookup_middle by done. rewrite (bool_decide_eq_false_2 _ Hid). simpl.
  split; [done|]. split.
  - rewrite lookup_app_l; [done|]. by eapply lookup_lt_Some.
  - intros k Hk. by rewrite JsMapFacts.get_set_ne.
Qed.

Lemma X11_reconnect_creates_new_record_witness :
  let st := run initial (startup ++ [ConnectionUpdate 0 closed_restart]) in
  let st1 := timer_fires 0 st in
  let st2 := settle (length (tasks st)) (resolved_authState 9 9 draws_98) st1 in
  ∃ sd, store st !! 0 = Some sd
    ∧ JsMap.get "default" (activeSessions st2) = Some 0
    ∧ timers st1 = delete 0 (timers st)
    ∧ tasks st1 = tasks st ++ [AwaitAuthState (Some (id sd))]
    ∧ get (id sd) st2
      = Some (mkSession (id sd) (generatePairingCode draws_98) None initializing None
                        (AUTH_FOLDER +:+ "/" +:+ id sd) 9 None None)
    ∧ store st2 !! 0 = Some sd
    ∧ (∀ k, k ≠ id sd → JsMap.get k (activeSessions st2) = JsMap.get k (activeSessions st)).
Proof.
  eexists. split; [reflexivity|]. split; [reflexivity|].
  apply (X11_reconnect_creates_new_record
           (run initial (startup ++ [ConnectionUpdate 0 closed_restart])) 0 0).
  - eexists. reflexivity.
  - reflexivity.
  - reflexivity.
Defined.

(** X12: for a session id that is a key of the registry the QR image route
    answers from that record alone: the image of its challenge, or 404 when
    it stores none (the [default] record is not consulted).  In a reachable
    state a record that holds a rendered image (what the socket.io [get_qr]
    message sends) always has a challenge, so the route serves its PNG. *)
Theorem X12_qr_of_registered_session st k sd ok :
  reachable st →
  get k st = Some sd →
  get_qr k ok st
  = (if Js.truthy (qr sd) then
       if ok then png (default "" (qr sd)) else json 500 body_thrown
     else json 404 (body_error "QR code not available"))
  ∧ (is_Some (qrImage sd) → get_qr k true st = png (default "" (qr sd))).
Proof.
  intros [Hrec _ _]%reachable_LifeInv Hk. unfold get_qr. rewrite Hk.
  split; [done|]. intros Himg.
  assert (∃ r, store st !! r = Some sd) as [r Hr].
  { unfold get in Hk. destruct (JsMap.get k (activeSessions st)); [|done].
    simpl in Hk. eauto. }
  eapply Forall_lookup_1 in Hrec; [|exact Hr].
  destruct Hrec as (_ & _ & _ & Hq). by rewrite (Hq Himg).
Qed.

Lemma X12_qr_of_registered_session_witness :
  let st := run initial (startup ++ [ConnectionUpdate 0 challenge;
                                     Settle 0 (resolved_qrImage "data:image/png");
                                     PostCreateSession (Some "A") 6;
                                     Settle 0 (resolved_authState 6 7 draws_98)]) in
  (qr <$> get "default" st = Some (Some "2@challenge"))
  ∧ get_qr "A" true st = json 404 (body_error "QR code not available").
Proof.
  split; [reflexivity|].
  refine (proj1 (X12_qr_of_registered_session
                   (run initial (startup ++ [ConnectionUpdate 0 challenge;
                                             Settle 0 (resolved_qrImage "data:image/png");
                                             PostCreateSession (Some "A") 6;
                                             Settle 0 (resolved_authState 6 7 draws_98)]))
                   "A" _ true _ eq_refl)).
  eexists. reflexivity.
Defined.

(** ** What is never undone, and what is published late *)

(** X13: no event or request ever removes a session or a pairing code: a key
    of [activeSessions] and a code of [pairingCodes] stay bound after every
    run of events, and every record stays in the store with the same id,
    pairing code, creation time and credentials folder. *)
Theorem X13_sessions_never_removed st es :
  (∀ k, is_Some (JsMap.get k (activeSessions st)) →
        is_Some (JsMap.get k (activeSessions (run st es))))
  ∧ (∀ code, is_Some (pairingCodes st !! code) →
             is_Some (pairingCodes (run st es) !! code))
  ∧ (∀ r sd, store st !! r = Some sd →
       ∃ sd', store (run st es) !! r = Some sd'
              ∧ id sd' = id sd ∧ pairingCode sd' = pairingCode sd
              ∧ createdAt sd' = createdAt sd ∧ authState sd' = authState sd).
Proof.
  destruct (extends_run st es) as [Hstore Hcodes Hkeys _].
  split; [done|]. split; [done|].
  intros r sd Hsd. destruct (Hstore r sd Hsd) as (sd' & Hsd' & (?&?&?&?&_)).
  by exists sd'.
Qed.

(** X14: an open event on a socket whose [sock.user.id] is set makes the
    record [connected] and fills its user (the id, the name or [Unknown], and
    as phone the digits of the id before its first colon), but publishes
    nothing yet: the handler is suspended on the profile-picture update. *)
Theorem X14_open_event_sets_identity st s sk w sd u :
  sockets st !! s = Some sk →
  sock_user sk = Some w →
  su_id w ≠ "" →
  store st !! sock_session sk = Some sd →
  Js.truthy (u_qr u) = false →
  connection u = Some conn_open →
  let st' := (step st (ConnectionUpdate s u)).1 in
  let phone := Js.digits_only (Js.before_first Js.colon (su_id w)) in
  store st' !! sock_session sk
  = Some (set_user (Some (mkUser (su_id w) (Js.or_else (su_name w) "Unknown") phone))
                   (set_status connected sd))
  ∧ Forall (λ c, Js.is_digit c = true) (String.list_ascii_of_string phone)
  ∧ tasks st' = tasks st ++ [AwaitProfilePicture (sock_session sk)]
  ∧ delivered st' = delivered st.
Proof.
  intros Hs Hw Hid Hsd Hq Hc. cbv zeta. simpl.
  unfold connection_update, on_update, on_update_conn.
  rewrite Hs, Hq, Hc. cbv zeta. simpl. rewrite Hs. simpl. rewrite Hw.
  rewrite (bool_decide_eq_false_2 _ Hid). simpl.
  rewrite list_alter_alter_eq, list_lookup_alter_eq, Hsd. simpl.
  split; [done|]. split; [apply digits_only_digits | done].
Qed.

Lemma X14_open_event_sets_identity_witness :
  let st := run initial (startup ++ [SockUserSet 0 (Some (mkSockUser "254700000001:7@s.whatsapp.net" None))]) in
  let st' := (step st (ConnectionUpdate 0 opened)).1 in
  user <$> store st' !! 0
  = Some (Some (mkUser "254700000001:7@s.whatsapp.net" "Unknown" "254700000001"))
  ∧ tasks st' = tasks st ++ [AwaitProfilePicture 0]
  ∧ delivered st' = delivered st.
Proof.
  pose proof (X14_open_event_sets_identity
                (run initial (startup ++ [SockUserSet 0 (Some (mkSockUser "254700000001:7@s.whatsapp.net" None))]))
                0 _ _ _ opened eq_refl eq_refl ltac:(discriminate) eq_refl eq_refl eq_refl)
    as (H1 & _ & H3 & H4).
  split; [|split; [exact H3 | exact H4]].
  apply (f_equal (fmap user)) in H1. exact H1.
Defined.

(** X15: the [session_update] of the open branch is published when the
    profile-picture update settles, whether it succeeded or failed, to the
    observers connected then, and it carries the status the record has at
    that moment (which need not be [connected] any more). *)
Theorem X15_open_publication_on_settle st i r sd o :
  tasks st !! i = Some (AwaitProfilePicture r) →
  store st !! r = Some sd →
  o = resolved_profilePicture ∨ o = rejected →
  let st' := settle i o st in
  store st' = store st
  ∧ tasks st' = delete i (tasks st)
  ∧ delivered st'
    = delivered st
      ++ ((λ ob, (ob, msg_session_update (id sd) (status sd)
                                         (Some (user sd, pairingCode sd))))
          <$> observers st).
Proof.
  intros Ht Hsd Ho. cbv zeta. unfold settle. rewrite Ht.
  destruct Ho as [-> | ->]; unfold on_update_open_emit; simpl; by rewrite Hsd.
Qed.

Lemma X15_open_publication_on_settle_witness :
  let st := run initial (startup ++ [SockUserSet 0 (Some (mkSockUser "254700000001:7@s.whatsapp.net" None));
                                     IoConnection;
                                     ConnectionUpdate 0 opened;
                                     ConnectionUpdate 0 closed_loggedOut]) in
  ∃ u, delivered (settle 0 rejected st)
       = delivered st ++ [(0, msg_session_update "IAN-TECH-5" disconnected
                                                 (Some (u, "ABCDEFGH")))].
Proof.
  eexists.
  pose proof (X15_open_publication_on_settle
                (run initial (startup ++ [SockUserSet 0 (Some (mkSockUser "254700000001:7@s.whatsapp.net" None));
                                          IoConnection;
                                          ConnectionUpdate 0 opened;
                                          ConnectionUpdate 0 closed_loggedOut]))
                0 0 _ rejected eq_refl eq_refl (or_intror eq_refl))
    as (_ & _ & H3).
  exact H3.
Defined.

(** X16: when rendering the QR image fails (and the update carries no
    [connection]), nothing is published and nothing changes but the finished
    continuation; when it succeeds the image is stored in the record and a
    [qr_update] with the session's id, pairing code and its status at that
    moment goes to the observers connected then. *)
Theorem X16_qr_publication st i r s u sd :
  tasks st !! i = Some (AwaitQrImage r s u) →
  store st !! r = Some sd →
  connection u = None →
  settle i rejected st = with_tasks (delete i (tasks st)) st
  ∧ ∀ img,
      store (settle i (resolved_qrImage img) st) !! r = Some (set_qrImage (Some img) sd)
      ∧ delivered (settle i (resolved_qrImage img) st)
        = delivered st
          ++ ((λ ob, (ob, msg_qr_update (id sd) img (pairingCode sd) (status sd)))
              <$> observers st).
Proof.
  intros Ht Hsd Hc. unfold settle. rewrite Ht.
  unfold on_update_qr_resume, on_update_conn. rewrite Hc. split; [done|].
  intros img. cbv zeta. simpl. rewrite list_lookup_alter_eq, Hsd. simpl.
  split; [|done]. by rewrite list_lookup_alter_eq, Hsd.
Qed.

Lemma X16_qr_publication_witness :
  let st := run initial (startup ++ [IoConnection; ConnectionUpdate 0 challenge]) in
  settle 0 rejected st = with_tasks (delete 0 (tasks st)) st
  ∧ delivered (settle 0 (resolved_qrImage "data:image/png") st)
    = delivered st ++ [(0, msg_qr_update "IAN-TECH-5" "data:image/png" "ABCDEFGH" qr_ready)].
Proof.
  pose proof (X16_qr_publication
                (run initial (startup ++ [IoConnection; ConnectionUpdate 0 challenge]))
                0 0 0 challenge _ eq_refl eq_refl eq_refl) as [H1 H2].
  split; [exact H1|]. exact (proj2 (H2 "data:image/png")).
Defined.

(** * Further properties of the single-session bot *)

Module BotAppFacts.
Import Bot BotApp.

Lemma bot_run_snoc st es e : run st (es ++ [e]) = step (run st es) e.
Proof. unfold run. by rewrite foldl_snoc. Qed.

Lemma truthy_default v : Js.truthy v = true → default "" v ≠ "".
Proof.
  destruct v as [s|]; simpl; [|done]. by intros ?%negb_true_iff%bool_decide_eq_false.
Qed.

(** What holds of the bot's variables in every reachable state. *)
Lemma step_invariant st e :
  (isConnecting st = true → status st = connecting ∨ status st = qr_ready) →
  (status st = qr_ready → qr st ≠ "") →
  (isConnecting (step st e) = true →
     status (step st e) = connecting ∨ status (step st e) = qr_ready)
  ∧ (status (step st e) = qr_ready → qr (step st e) ≠ "").
Proof.
  intros H1 H2. destruct e as [|i ok|u|i|]; simpl.
  - unfold connectToWhatsApp. destruct (isConnecting st) eqn:Hc; simpl; auto.
  - unfold settle. destruct (tasks st !! i) as [t|]; [|done].
    destruct ok; [destruct t|]; simpl; auto.
    split; [done | by intros ?].
  - unfold on_update.
    destruct (Js.truthy (u_qr u)) eqn:Hq;
      destruct (bool_decide (connection u = Some conn_open));
      destruct (bool_decide (connection u = Some conn_close));
      repeat case_match; simpl; split; intros; try done; auto;
      by apply truthy_default.
  - unfold timer_fires. destruct (timers st !! i); [|done].
    unfold connectToWhatsApp. simpl. destruct (isConnecting st) eqn:Hc; simpl; auto.
  - done.
Qed.

(** X17: in every reachable state of the bot, a connection attempt is
    flagged in progress only while the status is [connecting] or [qr_ready];
    and whenever the status is [qr_ready] a QR code is stored, so
    [GET /api/status] reports it as available. *)
Theorem X17_bot_status_invariant st su :
  reachable st →
  (isConnecting st = true → status st = connecting ∨ status st = qr_ready)
  ∧ (status st = qr_ready →
     qr st ≠ "" ∧ reply_qr_available (api_status su st) = true).
Proof.
  intros [es ->].
  cut ((isConnecting (run initial es) = true →
          status (run initial es) = connecting ∨ status (run initial es) = qr_ready)
       ∧ (status (run initial es) = qr_ready → qr (run initial es) ≠ "")).
  { intros [H1 H2]. split; [done|]. intros Hs. split; [by apply H2|].
    simpl. by rewrite (bool_decide_eq_false_2 _ (H2 Hs)). }
  induction es as [|e es [IH1 IH2]] using rev_ind; [by split|].
  rewrite bot_run_snoc. by apply step_invariant.
Qed.

Lemma X17_bot_status_invariant_witness :
  let st := run initial [Listen; Settle 0 true; Settle 0 true; Update challenge] in
  status st = qr_ready
  ∧ (isConnecting st = true → status st = connecting ∨ status st = qr_ready)
  ∧ (status st = qr_ready →
     qr st ≠ "" ∧ reply_qr_available (api_status None st) = true).
Proof.
  split; [reflexivity|].
  apply (X17_bot_status_invariant
           (run initial [Listen; Settle 0 true; Settle 0 true; Update challenge]) None).
  eexists. reflexivity.
Defined.

Lemma qr_step st e : qr st ≠ "" → qr (step st e) ≠ "".
Proof.
  intros Hq. destruct e as [|i ok|u|i|]; simpl.
  - unfold connectToWhatsApp. by destruct (isConnecting st).
  - unfold settle. destruct (tasks st !! i) as [t|]; [|done].
    by destruct ok; [destruct t|].
  - unfold on_update. repeat case_match; simpl; try done; by apply truthy_default.
  - unfold timer_fires. destruct (timers st !! i); [|done].
    unfold connectToWhatsApp. simpl. by destruct (isConnecting st).
  - done.
Qed.

(** X18: the bot never clears its QR code.  Once one is stored, after every
    run of events (connection, logout and restart included) a QR code is
    still stored: [GET /api/status] reports it as available and every new
    web client is sent a [qr] message, whatever the status. *)
Theorem X18_bot_qr_never_cleared st es su :
  qr st ≠ "" →
  qr (run st es) ≠ ""
  ∧ reply_qr_available (api_status su (run st es)) = true
  ∧ greeting su (run st es) !! 1 = Some (msg_qr (qr (run st es))).
Proof.
  intros Hq.
  assert (qr (run st es) ≠ "") as Hq'.
  { induction es as [|e es IH] using rev_ind; [done|].
    rewrite bot_run_snoc. by apply qr_step. }
  split; [done|]. unfold greeting. simpl.
  by rewrite (bool_decide_eq_false_2 _ Hq').
Qed.

Lemma X18_bot_qr_never_cleared_witness :
  let st := run initial [Listen; Settle 0 true; Settle 0 true; Update challenge] in
  let st' := run st [Update opened; Update closed_loggedOut; Restart] in
  qr st' ≠ ""
  ∧ reply_qr_available (api_status None st') = true
  ∧ greeting None st' !! 1 = Some (msg_qr (qr st')).
Proof.
  apply (X18_bot_qr_never_cleared
           (run initial [Listen; Settle 0 true; Settle 0 true; Update challenge])
           [Update opened; Update closed_loggedOut; Restart] None).
  discriminate.
Defined.

(** X19: a timer that fires while a connection attempt is flagged in
    progress is consumed without any effect: the retry is dropped, not
    rescheduled.  Otherwise it starts an attempt: the status becomes
    [connecting], it is published, and the attempt waits for the
    credentials. *)
Theorem X19_bot_timer_and_guard st i d :
  timers st !! i = Some d →
  (isConnecting st = true →
   timer_fires i st
   = mkState (sock st) (socks st) (qr st) (status st) true
             (tasks st) (delete i (timers st)) (emitted st))
  ∧ (isConnecting st = false →
     isConnecting (timer_fires i st) = true
     ∧ status (timer_fires i st) = connecting
     ∧ tasks (timer_fires i st) = tasks st ++ [AwaitAuthState]
     ∧ timers (timer_fires i st) = delete i (timers st)
     ∧ emitted (timer_fires i st) = emitted st ++ [msg_status connecting]).
Proof.
  intros Hi. unfold timer_fires, connectToWhatsApp. rewrite Hi. simpl.
  split; intros ->; done.
Qed.

Lemma X19_bot_timer_and_guard_witness :
  let st := run initial [Listen; Update closed_restart; Listen] in
  isConnecting st = true
  ∧ timer_fires 0 st
    = mkState (sock st) (socks st) (qr st) (status st) true
              (tasks st) (delete 0 (timers st)) (emitted st).
Proof.
  split; [reflexivity|].
  apply (X19_bot_timer_and_guard
           (run initial [Listen; Update closed_restart; Listen]) 0 5000%N eq_refl).
  reflexivity.
Defined.

(** X20: a failed connection attempt (either [await] rejecting) is not
    final: the status becomes [error], [isConnecting] is reset, the failure
    is published and a timer of ten seconds is added.  Whenever that timer
    fires while no attempt is flagged in progress (as is the case right after
    the failure) a new attempt starts; if another attempt is in progress
    when it fires, the retry is dropped (X19). *)
Theorem X20_bot_failure_is_retried st i t :
  tasks st !! i = Some t →
  let st1 := settle i false st in
  status st1 = error
  ∧ isConnecting st1 = false
  ∧ tasks st1 = delete i (tasks st)
  ∧ timers st1 = timers st ++ [10000%N]
  ∧ timers st1 !! length (timers st) = Some 10000%N
  ∧ emitted st1 = emitted st ++ [msg_status error; msg_error]
  ∧ (∀ st2 k, timers st2 !! k = Some 10000%N → isConnecting st2 = false →
       status (timer_fires k st2) = connecting
       ∧ isConnecting (timer_fires k st2) = true
       ∧ timers (timer_fires k st2) = delete k (timers st2)
       ∧ tasks (timer_fires k st2) = tasks st2 ++ [AwaitAuthState]).
Proof.
  intros Ht. cbv zeta. unfold settle. rewrite Ht. simpl.
  split; [done|]. split; [done|]. split; [done|]. split; [done|].
  split; [by apply list_lookup_middle|].
  split; [by rewrite <- app_assoc|].
  intros st2 k Hk Hc. unfold timer_fires, connectToWhatsApp. rewrite Hk. simpl.
  by rewrite Hc.
Qed.

Lemma X20_bot_failure_is_retried_witness :
  let st := run initial [Listen] in
  let st1 := settle 0 false st in
  status st1 = error
  ∧ isConnecting st1 = false
  ∧ timers st1 = [10000%N]
  ∧ status (timer_fires 0 st1) = connecting
  ∧ tasks (timer_fires 0 st1) = [AwaitAuthState].
Proof.
  pose proof (X20_bot_failure_is_retried (run initial [Listen]) 0 AwaitAuthState eq_refl)
    as (H1 & H2 & _ & H4 & H5 & _ & H7).
  split; [exact H1|]. split; [exact H2|]. split; [exact H4|].
  destruct (H7 (settle 0 false (run initial [Listen])) 0 H5 H2) as (H8 & _ & _ & H9).
  split; [exact H8 | exact H9].
Defined.

End BotAppFacts.

Module BotRouteFacts.
Import Bot BotApp.

(** X21: [POST /api/send] checks its fields first and the status second: a
    missing or falsy number or message gives the first 400, a status other
    than [connected] the second, and neither sends anything.  When connected,
    a number that is neither a string nor an array has no [includes]: the
    route answers 500 and sends nothing.  Otherwise, with a socket, exactly
    one [sendMessage] call is made; for a string number it goes to the number
    itself if it contains [@] and to [<number>@s.whatsapp.net] otherwise; the
    answer is 200 with a [sent] event for the web clients when the send
    resolves, and 500 without that event when it rejects.  [sendMessage] is
    never called unless the status is [connected]. *)
Theorem X21_bot_api_send st number message ok :
  (field_truthy number = false ∨ field_truthy message = false →
     api_send number message ok st = ([], (400, Some "Number and message are required")))
  ∧ (field_truthy number = true → field_truthy message = true →
     status st ≠ connected →
     api_send number message ok st = ([], (400, Some "Bot is not connected")))
  ∧ (field_truthy number = true → field_truthy message = true →
     status st = connected → jid_of number = None →
     api_send number message ok st = ([], (500, None)))
  ∧ (∀ jid, field_truthy number = true → field_truthy message = true →
     status st = connected → is_Some (sock st) → jid_of number = Some jid →
     api_send number message ok st
     = if ok
       then ([send_message jid message; emit_sent message number],
             (200, Some "Message sent"))
       else ([send_message jid message], (500, None)))
  ∧ (∀ n, jid_of (field_string n)
          = Some (field_string (if includes "@" n then n else n +:+ "@s.whatsapp.net")))
  ∧ (∀ jid text, send_message jid text ∈ (api_send number message ok st).1 →
       status st = connected ∧ is_Some (sock st) ∧ jid_of number = Some jid
       ∧ text = message).
Proof.
  unfold api_send. split_and!.
  - intros [-> | ->]; [done|]. by rewrite orb_true_r.
  - intros -> -> Hst. simpl. by rewrite (bool_decide_eq_false_2 _ Hst).
  - intros -> -> Hst Hjid. simpl. by rewrite (bool_decide_eq_true_2 _ Hst), Hjid.
  - intros jid -> -> Hst [s Hs] Hjid. simpl.
    rewrite (bool_decide_eq_true_2 _ Hst), Hjid, Hs. simpl. by destruct ok.
  - done.
  - intros jid text.
    destruct (negb (field_truthy number) || negb (field_truthy message));
      [by intros ?%elem_of_nil|].
    destruct (bool_decide (status st = connected)) eqn:Hst;
      [|by intros ?%elem_of_nil]. simpl.
    apply bool_decide_eq_true in Hst.
    destruct (jid_of number) as [jid'|]; [|by intros ?%elem_of_nil].
    destruct (sock st); [|by intros ?%elem_of_nil].
    destruct ok.
    + intros [[= -> ->]|Hin]%elem_of_cons; [by eauto|].
      apply elem_of_cons in Hin as [?|Hin]; [done | by apply elem_of_nil in Hin].
    + intros [[= -> ->]|Hin]%elem_of_cons; [by eauto | by apply elem_of_nil in Hin].
Qed.

(** X22: [POST /api/restart] drops the socket and schedules a connection
    attempt in two seconds, but leaves the status as it was.  So if the bot
    was [connected], until the old socket's close event arrives
    [GET /api/status] still reports it connected (with no user) while
    [POST /api/send] fails with 500 without sending anything. *)
Theorem X22_bot_restart_window st su number message ok :
  status st = connected →
  field_truthy number = true →
  field_truthy message = true →
  let st' := api_restart st in
  timers st' = timers st ++ [2000%N]
  ∧ api_status su st' = mkStatusReply connected (negb (bool_decide (qr st = ""))) true None
  ∧ api_send number message ok st' = ([], (500, None)).
Proof.
  intros Hst Hn Hm. cbv zeta. split; [done|].
  unfold api_status, api_send. simpl. rewrite Hst, Hn, Hm. simpl.
  split; [done|]. by destruct (jid_of number).
Qed.

Lemma X22_bot_restart_window_witness :
  let st := run initial [Listen; Settle 0 true; Settle 0 true; Update opened] in
  let st' := api_restart st in
  status st = connected
  ∧ timers st' = timers st ++ [2000%N]
  ∧ api_status None st' = mkStatusReply connected (negb (bool_decide (qr st = ""))) true None
  ∧ api_send (field_string "254700000001") (field_string "hello") true st'
    = ([], (500, None)).
Proof.
  split; [reflexivity|].
  apply (X22_bot_restart_window
           (run initial [Listen; Settle 0 true; Settle 0 true; Update opened])
           None (field_string "254700000001") (field_string "hello") true); reflexivity.
Defined.

Lemma upsert_loop_sends lower send j messages jid text :
  act_send jid text ∈ upsert_loop lower send j messages →
  text = auto_reply
  ∧ ∃ m, m ∈ messages ∧ remoteJid m = jid ∧ fromMe m = false ∧ greets lower m = true.
Proof.
  revert j. induction messages as [|m rest IH]; intros j; simpl.
  { by intros ?%elem_of_nil. }
  assert (∀ j', act_send jid text ∈ upsert_loop lower send j' rest →
            text = auto_reply
            ∧ ∃ m', m' ∈ m :: rest ∧ remoteJid m' = jid ∧ fromMe m' = false
                    ∧ greets lower m' = true) as IH'.
  { intros j' Hin. destruct (IH j' Hin) as (-> & m' & Hm' & ?).
    split; [done|]. exists m'. split; [by apply list_elem_of_further | done]. }
  destruct (fromMe m) eqn:Hme; [by apply IH'|].
  rewrite elem_of_cons. intros [?|Hin]; [done|].
  fold (greets lower m) in Hin.
  destruct (greets lower m) eqn:Hg; [|by eapply IH'].
  destruct (send j) as [ok|]; [|by apply elem_of_nil in Hin].
  apply elem_of_cons in Hin as [[= -> ->]|Hin].
  { split; [done|]. exists m. split; [apply list_elem_of_here | done]. }
  destruct ok; [|by apply elem_of_nil in Hin].
  apply elem_of_cons in Hin as [?|Hin]; [done|]. by eapply IH'.
Qed.

Lemma upsert_loop_received lower send j messages :
  (∀ k, send k = Some true) →
  omap received_of (upsert_loop lower send j messages)
  = (λ m, (remoteJid m, text_of m)) <$> filter (λ m, fromMe m = false) messages.
Proof.
  intros Hsend. revert j. induction messages as [|m rest IH]; intros j; [done|].
  simpl. destruct (fromMe m) eqn:Hme.
  - rewrite filter_cons_False by (by rewrite Hme). apply IH.
  - rewrite filter_cons_True by done. rewrite fmap_cons. cbn. f_equal.
    fold (greets lower m). destruct (greets lower m); [|apply IH].
    rewrite Hsend. cbn. apply IH.
Qed.

(** X23: the [messages.upsert] handler does nothing for a batch whose type is
    not [notify].  It never answers one of the bot's own messages: every
    automatic reply goes to the sender of a message of the batch that is not
    from the bot and whose lower-cased text contains [hello] or [hi], and its
    text is the fixed greeting.  When every reply is sent, the web clients
    get one [received] event for each message not from the bot, in the order
    of the batch. *)
Theorem X23_bot_messages_upsert lower send type messages :
  (type ≠ "notify" → messages_upsert lower send type messages = [])
  ∧ (∀ jid text, act_send jid text ∈ messages_upsert lower send type messages →
       text = auto_reply
       ∧ ∃ m, m ∈ messages ∧ remoteJid m = jid ∧ fromMe m = false
              ∧ greets lower m = true)
  ∧ ((∀ k, send k = Some true) →
     omap received_of (messages_upsert lower send "notify" messages)
     = (λ m, (remoteJid m, text_of m)) <$> filter (λ m, fromMe m = false) messages).
Proof.
  unfold messages_upsert. split_and!.
  - intros Hty. by rewrite (bool_decide_eq_false_2 _ Hty).
  - intros jid text. destruct (bool_decide (type = "notify")); simpl.
    + apply upsert_loop_sends.
    + by intros ?%elem_of_nil.
  - intros Hsend. simpl. by apply upsert_loop_received.
Qed.

End BotRouteFacts.
